(** * Portfolio optimizer pipeline: a shallow embedding of [full_app.py]

    The six stages of the pipeline (cleaning, normalization, composite
    scoring, selection, returns analysis, optimization set-up and
    post-processing) are embedded as functions over a small model of a
    pandas frame.  Floating-point numbers are idealised as rationals
    ([Q]); a missing value (NaN) is a value of its own. *)

From Stdlib Require Import QArith Qround Qminmax Qabs Qpower ZArith List String Lia Lqa.
From Stdlib Require Import Permutation Sorted.
From stdpp Require Import gmap strings.
Import ListNotations.

Open Scope string_scope.
Open Scope Q_scope.
Open Scope nat_scope.

(** ** Numbers *)

Definition Qlt_bool (x y : Q) : bool := negb (Qle_bool y x).

(** A float that may be NaN.  Arithmetic propagates NaN and every
    comparison with NaN is false. *)
Definition num : Type := option Q.

Definition num_mul (x y : num) : num :=
  match x, y with
  | Some a, Some b => Some (a * b)%Q
  | _, _ => None
  end.

Definition num_gt (x y : num) : bool :=
  match x, y with
  | Some a, Some b => Qlt_bool b a
  | _, _ => false
  end.

Fixpoint Qsum (l : list Q) : Q :=
  match l with
  | [] => 0%Q
  | x :: l' => (x + Qsum l')%Q
  end.

Definition Qmin_list (x : Q) (l : list Q) : Q := fold_left Qmin l x.
Definition Qmax_list (x : Q) (l : list Q) : Q := fold_left Qmax l x.

(** The values of a series that are present, as [dropna] gives them. *)
Fixpoint dropna (l : list num) : list Q :=
  match l with
  | [] => []
  | Some q :: l' => q :: dropna l'
  | None :: l' => dropna l'
  end.

(** Ascending and descending sorts of numbers, by insertion. *)
Fixpoint insert_by (leb : Q -> Q -> bool) (x : Q) (l : list Q) : list Q :=
  match l with
  | [] => [x]
  | y :: l' => if leb x y then x :: l else y :: insert_by leb x l'
  end.

Definition sort_by (leb : Q -> Q -> bool) (l : list Q) : list Q :=
  fold_right (insert_by leb) [] l.

Definition Qge_bool (x y : Q) : bool := Qle_bool y x.

Definition sort_asc : list Q -> list Q := sort_by Qle_bool.
Definition sort_desc : list Q -> list Q := sort_by Qge_bool.

(** ** Frames

    A frame is a header (column label with its dtype) and a list of rows;
    a row maps a column label to its cell. *)

Inductive cell : Type :=
| Num (q : Q)
| NaN
| Str (s : string).

Inductive dtype : Type := Numeric | Object.

Record DataFrame : Type := mkDF {
  columns : list (string * dtype);
  rows : list (gmap string cell)
}.

Definition len (df : DataFrame) : nat := length (rows df).

Definition labels (df : DataFrame) : list string := map fst (columns df).

Fixpoint col_dtype (col : string) (cs : list (string * dtype)) : option dtype :=
  match cs with
  | [] => None
  | (c, d) :: cs' => if String.eqb c col then Some d else col_dtype col cs'
  end.

Definition is_numeric_dtype (df : DataFrame) (col : string) : bool :=
  match col_dtype col (columns df) with
  | Some Numeric => true
  | _ => false
  end.

(** [row[col]]. *)
Definition at_col (col : string) (r : gmap string cell) : cell :=
  match r !! col with
  | Some c => c
  | None => NaN
  end.

(** [row[col]] in a numeric column. *)
Definition at_num (col : string) (r : gmap string cell) : num :=
  match at_col col r with
  | Num q => Some q
  | _ => None
  end.

Definition of_num (x : num) : cell :=
  match x with
  | Some q => Num q
  | None => NaN
  end.

(** [df[col]] as a list of cells, and as a numeric series. *)
Definition col_cells (col : string) (df : DataFrame) : list cell :=
  map (at_col col) (rows df).

Definition col_values (col : string) (df : DataFrame) : list num :=
  map (at_num col) (rows df).

(** The header after [df[col] = ...]: an existing label keeps its place
    and takes the new dtype, a new label is appended. *)
Fixpoint set_header (col : string) (d : dtype) (cs : list (string * dtype))
  : list (string * dtype) :=
  match cs with
  | [] => [(col, d)]
  | (c, d') :: cs' =>
      if String.eqb c col then (c, d) :: cs' else (c, d') :: set_header col d cs'
  end.

Fixpoint assign_rows (col : string) (vs : list cell) (rs : list (gmap string cell))
  : list (gmap string cell) :=
  match rs, vs with
  | r :: rs', v :: vs' => <[col := v]> r :: assign_rows col vs' rs'
  | _, _ => rs
  end.

(** [df[col] = vs], with [vs] one value per row. *)
Definition assign (col : string) (d : dtype) (vs : list cell) (df : DataFrame)
  : DataFrame :=
  mkDF (set_header col d (columns df)) (assign_rows col vs (rows df)).

(** [df[mask]] for a row predicate. *)
Definition select_rows (m : gmap string cell -> bool) (df : DataFrame) : DataFrame :=
  mkDF (columns df) (List.filter m (rows df)).

(** [series < 0], [series.isnull()] and [series.notnull()] at one cell. *)
Definition lt_zero (c : cell) : bool :=
  match c with
  | Num q => Qlt_bool q 0
  | _ => false
  end.

Definition isnull (c : cell) : bool :=
  match c with
  | NaN => true
  | _ => false
  end.

Definition notnull (c : cell) : bool := negb (isnull c).

(** [a == b] on cells; NaN equals nothing. *)
Definition cell_eqb (a b : cell) : bool :=
  match a, b with
  | Num x, Num y => Qeq_bool x y
  | Str x, Str y => String.eqb x y
  | _, _ => false
  end.

(** [mask.sum()]: the number of rows at which the mask holds. *)
Definition mask_sum (m : gmap string cell -> bool) (rs : list (gmap string cell)) : nat :=
  length (List.filter m rs).

(** ** Cleaner: [clean_data] *)

Module Cleaner.

Definition preserve_columns : list string :=
  ["Stock"; "Market Capitalization"; "Industry"; "NSE Code"; "BSE Code"; "ISIN"].

Definition preserved (col : string) : bool :=
  existsb (String.eqb col) preserve_columns.

Definition columns_to_clean (df : DataFrame) : list string :=
  List.filter (fun col => negb (preserved col)) (labels df).

Record CleaningStats : Type := mkStats {
  initial_rows : nat;
  removed_rows : gmap string nat;
  final_rows : nat;
  total_removed : nat
}.

Definition neg_key (col : string) : string := "Negative values in " +:+ col.
Definition null_key (col : string) : string := "Missing values in " +:+ col.

(** The rows kept by the loop body for column [col]:
    [~neg_mask & df_cleaned[col].notnull()]. *)
Definition keep (col : string) (r : gmap string cell) : bool :=
  negb (lt_zero (at_col col r)) && notnull (at_col col r).

(** One iteration of the [for col in columns_to_clean] loop: the state is
    the current [df_cleaned] and the [removed_rows] dict. *)
Definition clean_step (st : DataFrame * gmap string nat) (col : string)
  : DataFrame * gmap string nat :=
  let '(cur, removed) := st in
  if is_numeric_dtype cur col then
    let neg_count := mask_sum (fun r => lt_zero (at_col col r)) (rows cur) in
    let removed1 :=
      if 0 <? neg_count then <[neg_key col := neg_count]> removed else removed in
    let null_count := mask_sum (fun r => isnull (at_col col r)) (rows cur) in
    let removed2 :=
      if 0 <? null_count then <[null_key col := null_count]> removed1 else removed1 in
    (select_rows (keep col) cur, removed2)
  else st.

Definition clean_data (df : DataFrame) : DataFrame * CleaningStats :=
  let '(df_cleaned, removed) :=
    fold_left clean_step (columns_to_clean df) (df, ∅) in
  (df_cleaned,
   mkStats (len df) removed (len df_cleaned) (len df - len df_cleaned)).

(** The sum of the per-reason counts of the report. *)
Definition reasons_total (removed : gmap string nat) : nat :=
  map_fold (fun _ n acc => n + acc) 0 removed.

(** The keys of the dict come from the columns already visited. *)
Definition keys_from (visited : list string) (removed : gmap string nat) : Prop :=
  forall k, is_Some (removed !! k) ->
    exists c, In c visited /\ (k = neg_key c \/ k = null_key c).

(** A row is valid when no checked numeric column holds a negative or a
    missing value in it. *)
Definition valid_in (df : DataFrame) (cols : list string) (r : gmap string cell) : bool :=
  forallb (fun col => if is_numeric_dtype df col then keep col r else true) cols.

Definition valid_row (df : DataFrame) (r : gmap string cell) : bool :=
  valid_in df (columns_to_clean df) r.

End Cleaner.

(** ** Normalizer: [normalize_data] *)

Module Normalizer.

(** [-1 * series]. *)
Definition negate (x : num) : num :=
  match x with
  | Some q => Some (-1 * q)%Q
  | None => None
  end.

(** scikit-learn's [_handle_zeros_in_scale]: a zero range is replaced by 1
    so that a constant feature is not divided by zero. *)
Definition handle_zeros_in_scale (range : Q) : Q :=
  if Qeq_bool range 0 then 1%Q else range.

(** [MinMaxScaler().fit_transform] on a single column, with the default
    feature range (0, 1): [scale_ = 1 / data_range],
    [min_ = 0 - data_min * scale_], and [X * scale_ + min_].  NaN is
    disregarded in the fit and kept by the transform. *)
Definition fit_transform (xs : list num) : list num :=
  match dropna xs with
  | [] => xs
  | v :: vs =>
      let data_min := Qmin_list v vs in
      let data_max := Qmax_list v vs in
      let data_range := (data_max - data_min)%Q in
      let scale_ := (1 / handle_zeros_in_scale data_range)%Q in
      let min_ := (0 - data_min * scale_)%Q in
      map (fun x => match x with
                    | Some q => Some (q * scale_ + min_)%Q
                    | None => None
                    end) xs
  end.

(** What the loop body does to the values of [column]. *)
Definition scale_column (invert : bool) (xs : list num) : list num :=
  fit_transform (if invert then map negate xs else xs).

Definition inb (col : string) (cols : list string) : bool :=
  existsb (String.eqb col) cols.

Definition normalize_step (columns_to_invert : list string)
    (df_normalized : DataFrame) (column : string) : DataFrame :=
  assign column Numeric
    (map of_num
       (scale_column (inb column columns_to_invert)
          (col_values column df_normalized)))
    df_normalized.

Definition normalize_data (df : DataFrame)
    (columns_to_normalize columns_to_invert : list string) : DataFrame :=
  fold_left (normalize_step columns_to_invert) columns_to_normalize df.

(** Properties of the values of a column, for the statements on
    normalization. *)
Definition is_min (m : Q) (l : list Q) : Prop :=
  (exists x, In x l /\ x == m)%Q /\ (forall x, In x l -> m <= x)%Q.

Definition is_max (m : Q) (l : list Q) : Prop :=
  (exists x, In x l /\ x == m)%Q /\ (forall x, In x l -> x <= m)%Q.

Definition scaled (mn mx : Q) (x y : num) : Prop :=
  match x, y with
  | Some a, Some b => (b == (a - mn) / (mx - mn))%Q
  | None, None => True
  | _, _ => False
  end.

Definition non_constant (l : list Q) : Prop :=
  exists a b, In a l /\ In b l /\ ~ (a == b)%Q.

End Normalizer.

(** ** ScoreEngine: [calculate_composite_score] and the ranking *)

Module ScoreEngine.

(** [weights[col]]; the caller passes a weight for every column. *)
Definition weight_of (weights : gmap string Q) (col : string) : Q :=
  match weights !! col with
  | Some w => w
  | None => 0%Q
  end.

(** One row of [df[cols].multiply(weight_array, axis=1).sum(axis=1)]:
    the sum skips NaN. *)
Definition row_score (cols : list string) (weights : gmap string Q)
    (r : gmap string cell) : Q :=
  Qsum (dropna (map (fun col => num_mul (at_num col r)
                                  (Some (weight_of weights col / 100)%Q)) cols)).

Definition calculate_composite_score (df : DataFrame) (cols : list string)
    (weights : gmap string Q) : list Q :=
  map (row_score cols weights) (rows df).

(** pandas' [Series.rank(ascending=False)], whose method defaults to
    'average': the values are put in descending order, and every value
    receives the mean of the (1-based) positions its tie group occupies. *)
Fixpoint tie_positions (v : Q) (sorted : list Q) (k : nat) : list nat :=
  match sorted with
  | [] => []
  | x :: rest =>
      if Qeq_bool x v then k :: tie_positions v rest (S k)
      else tie_positions v rest (S k)
  end.

Definition Qmean_nat (l : list nat) : Q :=
  (inject_Z (Z.of_nat (list_sum l)) / inject_Z (Z.of_nat (length l)))%Q.

Definition rank_of (scores : list Q) (v : Q) : Q :=
  Qmean_nat (tie_positions v (sort_desc scores) 1).

Definition rank (scores : list Q) : list Q := map (rank_of scores) scores.

(** The number of scores strictly above [v], and the size of the tie
    group of [v]. *)
Definition count_greater (scores : list Q) (v : Q) : nat :=
  length (List.filter (fun s => Qlt_bool v s) scores).

Definition count_equal (scores : list Q) (v : Q) : nat :=
  length (List.filter (fun s => Qeq_bool s v) scores).

(** Standard competition ranking, as the specification words it: a score
    takes the lowest position of its tie group, one plus the number of
    strictly larger scores. *)
Definition competition_rank_of (scores : list Q) (v : Q) : Q :=
  inject_Z (Z.of_nat (S (count_greater scores v))).

(** [df.sort_values('Composite Score', ascending=False)]: larger scores
    first, NaN last, rows of equal score in their former order. *)
Definition stays_before {A} (key : A -> num) (r' r : A) : bool :=
  match key r', key r with
  | Some a, Some b => Qlt_bool b a
  | Some _, None => true
  | None, _ => false
  end.

Fixpoint insert_desc {A} (key : A -> num) (r : A) (rs : list A) : list A :=
  match rs with
  | [] => [r]
  | r' :: rs' =>
      if stays_before key r' r then r' :: insert_desc key r rs'
      else r :: rs
  end.

Definition sort_desc_by {A} (key : A -> num) (rs : list A) : list A :=
  fold_right (insert_desc key) [] rs.

Definition sort_values_desc (col : string) (df : DataFrame) : DataFrame :=
  mkDF (columns df) (sort_desc_by (at_num col) (rows df)).

(** [Series.rank(ascending=False)] on a column: NaN is left out of the
    ranking and keeps NaN. *)
Definition rank_series (xs : list num) : list num :=
  map (fun x => match x with
                | Some v => Some (rank_of (dropna xs) v)
                | None => None
                end) xs.

End ScoreEngine.

(** ** Selector: percentile cutoff and market-cap buckets *)

Module Selector.

Definition is_nan (x : num) : bool :=
  match x with
  | Some _ => false
  | None => true
  end.

(** numpy's [percentile(a, q, method='linear')]: with the sorted values
    [s] and [n] their number, the virtual index is [(n - 1) * q / 100];
    the result interpolates between the order statistics below and above
    it.  NaN in the input, or an empty input, gives NaN. *)
Definition percentile (a : list num) (q : Z) : num :=
  if existsb is_nan a then None
  else
    match sort_asc (dropna a) with
    | [] => None
    | (x :: _) as s =>
        let n := length s in
        let virtual := (inject_Z (Z.of_nat (n - 1)) * (inject_Z q / 100))%Q in
        let previous := Z.to_nat (Qfloor virtual) in
        let next := Nat.min (S previous) (n - 1) in
        let gamma := (virtual - inject_Z (Qfloor virtual))%Q in
        let lo := nth previous s x in
        let hi := nth next s x in
        Some (lo + (hi - lo) * gamma)%Q
    end.

(** [pd.cut(x, bins=[-inf, 29182.71, 89123.03, inf], labels=[...],
    include_lowest=True).astype(str)]: the bins are closed on the right;
    a missing value falls in no bin and prints as "nan". *)
Definition small_cap_limit : Q := 2918271 # 100.
Definition mid_cap_limit : Q := 8912303 # 100.

Definition market_cap_category (x : num) : string :=
  match x with
  | None => "nan"
  | Some v =>
      if Qle_bool v small_cap_limit then "Small-Cap"
      else if Qle_bool v mid_cap_limit then "Mid-Cap"
      else "Large-Cap"
  end.

(** The rows of [df_ranked] above the cutoff. *)
Definition above (cutoff : num) (r : gmap string cell) : bool :=
  num_gt (at_num "Composite Score" r) cutoff.

Definition percentile_value (df_ranked : DataFrame) (percentile_threshold : Z) : num :=
  percentile (col_values "Composite Score" df_ranked) percentile_threshold.

Definition select_stocks (df_ranked : DataFrame) (percentile_threshold : Z)
  : DataFrame :=
  let df_selected :=
    select_rows (above (percentile_value df_ranked percentile_threshold)) df_ranked in
  assign "Market Cap Category" Object
    (map (fun x => Str (market_cap_category x))
         (col_values "Market Capitalization" df_selected))
    df_selected.

(** A selected row: the row of the ranked table with its bucket added. *)
Definition with_category (r : gmap string cell) : gmap string cell :=
  <["Market Cap Category" :=
      Str (market_cap_category (at_num "Market Capitalization" r))]> r.

(** The bucket a row must carry, by the thresholds; a row without a
    market capitalization carries the text "nan". *)
Definition bucketed (r : gmap string cell) : Prop :=
  match at_num "Market Capitalization" r with
  | Some v =>
      ((v <= small_cap_limit)%Q
       /\ at_col "Market Cap Category" r = Str "Small-Cap")
      \/ ((small_cap_limit < v)%Q /\ (v <= mid_cap_limit)%Q
          /\ at_col "Market Cap Category" r = Str "Mid-Cap")
      \/ ((mid_cap_limit < v)%Q
          /\ at_col "Market Cap Category" r = Str "Large-Cap")
  | None => at_col "Market Cap Category" r = Str "nan"
  end.

(** The specification's cutoff: [c] is the linear interpolation, at the
    fractional position [(n - 1) * p / 100], between the order statistics
    of the ascending list [s]. *)
Definition interpolated (s : list Q) (p : Z) (c : Q) : Prop :=
  exists (j : nat) (g : Q),
    (0 <= g)%Q /\ (g < 1)%Q /\ (j < length s)%nat
    /\ (inject_Z (Z.of_nat j) + g
        == inject_Z (Z.of_nat (length s - 1)) * (inject_Z p / 100))%Q
    /\ (c == nth j s 0 + (nth (Nat.min (S j) (length s - 1)) s 0 - nth j s 0) * g)%Q.

End Selector.

(** ** ReturnsAnalyzer: symbols, trading days, covariance *)

Module ReturnsAnalyzer.

(** [get_stock_symbol]: the NSE code when present, else the BSE code. *)
Definition get_stock_symbol (row : gmap string cell) : cell :=
  if notnull (at_col "NSE Code" row) then at_col "NSE Code" row
  else at_col "BSE Code" row.

(** The table of daily returns: one row per trading day of the index,
    one series per fetched symbol. *)
Record ReturnsFrame : Type := mkReturns {
  dates : list nat;
  assets : list (cell * list num)
}.

Definition trading_days_of (returns_data : ReturnsFrame) : nat :=
  length (dates returns_data).

Definition Qlen {A} (l : list A) : Q := inject_Z (Z.of_nat (length l)).


(** The observations on which both series are present. *)
Fixpoint complete_pairs (xs ys : list num) : list (Q * Q) :=
  match xs, ys with
  | Some x :: xs', Some y :: ys' => (x, y) :: complete_pairs xs' ys'
  | _ :: xs', _ :: ys' => complete_pairs xs' ys'
  | _, _ => []
  end.

(** One entry of [DataFrame.cov()]: the sample covariance (divisor
    [n - 1]) over the pairwise-complete observations; NaN with fewer than
    two of them. *)
Definition cov (xs ys : list num) : num :=
  let ps := complete_pairs xs ys in
  if (length ps <? 2)%nat then None
  else
    let mx := (Qsum (map fst ps) / Qlen ps)%Q in
    let my := (Qsum (map snd ps) / Qlen ps)%Q in
    Some (Qsum (map (fun p => (fst p - mx) * (snd p - my))%Q ps)
          / (Qlen ps - 1))%Q.

Definition cov_matrix (returns_data : ReturnsFrame) : list (list num) :=
  map (fun a => map (fun b => cov (snd a) (snd b)) (assets returns_data))
      (assets returns_data).

Definition scale_matrix (m : list (list num)) (k : nat) : list (list num) :=
  map (map (fun x => num_mul x (Some (inject_Z (Z.of_nat k))))) m.

(** [returns_data.cov() * trading_metrics['total_trading_days']]. *)
Definition covariance_matrix_of (returns_data : ReturnsFrame) : list (list num) :=
  scale_matrix (cov_matrix returns_data) (trading_days_of returns_data).

End ReturnsAnalyzer.

(** ** PortfolioOptimizer: the constraint set

    The constraint functions are lambdas created inside the body of
    [handle_portfolio_optimization].  A default argument ([idx=...]) is
    evaluated when the lambda is created and stored in it; a free
    variable is read from the enclosing scope when the lambda is called. *)

Module Optimizer.

(** The variables of the enclosing scope that the lambdas read. *)
Record Scope : Type := mkScope {
  industry : option string;
  cap_type : option string;
  industry_limits : gmap string Q;
  cap_limits : gmap string Q
}.

(** The three lambdas of the source, each with its stored defaults. *)
Inductive ConstraintFun : Type :=
| SumToOne
| IndustryCap (idx : list nat)
| BucketCap (idx : list nat).

Inductive ConstraintType : Type := Eq_ | Ineq.

Record Constraint : Type := mkConstraint {
  type_ : ConstraintType;
  fun_ : ConstraintFun
}.

(** [np.sum(x[idx])]. *)
Definition sum_at (x : list Q) (idx : list nat) : Q :=
  Qsum (map (fun i => nth i x 0%Q) idx).

(** Calling a lambda in the scope as it is at the time of the call.
    A failed lookup (KeyError, unbound name) is [None]. *)
Definition call (sc : Scope) (f : ConstraintFun) (x : list Q) : option Q :=
  match f with
  | SumToOne => Some (Qsum x - 1)%Q
  | IndustryCap idx =>
      match industry sc with
      | Some name =>
          match industry_limits sc !! name with
          | Some limit => Some (limit - sum_at x idx)%Q
          | None => None
          end
      | None => None
      end
  | BucketCap idx =>
      match cap_type sc with
      | Some name =>
          match cap_limits sc !! name with
          | Some limit => Some (limit - sum_at x idx)%Q
          | None => None
          end
      | None => None
      end
  end.

Definition str_of (c : cell) : option string :=
  match c with
  | Str s => Some s
  | _ => None
  end.

(** [Series.unique()]: the distinct values in order of first appearance. *)
Fixpoint unique (l : list string) : list string :=
  match l with
  | [] => []
  | x :: l' => x :: List.filter (fun y => negb (String.eqb x y)) (unique l')
  end.

Definition industries_of (selected_stocks : DataFrame) : list string :=
  unique (omap str_of (col_cells "Industry" selected_stocks)).

(** [selected_stocks[selected_stocks[col] == v]['Symbol'].values]. *)
Definition symbols_where (col v : string) (selected_stocks : DataFrame) : list cell :=
  map (at_col "Symbol")
      (List.filter (fun r => cell_eqb (at_col col r) (Str v)) (rows selected_stocks)).

(** [[i for i, symbol in enumerate(columns) if symbol in stocks]]. *)
Fixpoint indices_from (i : nat) (cols : list cell) (stocks : list cell) : list nat :=
  match cols with
  | [] => []
  | symbol :: cols' =>
      if existsb (cell_eqb symbol) stocks
      then i :: indices_from (S i) cols' stocks
      else indices_from (S i) cols' stocks
  end.

Definition group_indices (col v : string) (selected_stocks : DataFrame)
    (returns_columns : list cell) : list nat :=
  indices_from 0 returns_columns (symbols_where col v selected_stocks).

(** One iteration of [for industry in industries]: the loop variable is
    assigned in the scope, then the constraint is appended when the group
    has a column in the returns table. *)
Definition industry_step (selected_stocks : DataFrame) (returns_columns : list cell)
    (st : Scope * list Constraint) (name : string) : Scope * list Constraint :=
  let '(sc, constraints) := st in
  let sc' := mkScope (Some name) (cap_type sc) (industry_limits sc) (cap_limits sc) in
  let industry_indices := group_indices "Industry" name selected_stocks returns_columns in
  match industry_indices with
  | [] => (sc', constraints)
  | _ => (sc', (constraints ++ [mkConstraint Ineq (IndustryCap industry_indices)])%list)
  end.

Definition cap_step (selected_stocks : DataFrame) (returns_columns : list cell)
    (st : Scope * list Constraint) (name : string) : Scope * list Constraint :=
  let '(sc, constraints) := st in
  let sc' := mkScope (industry sc) (Some name) (industry_limits sc) (cap_limits sc) in
  let cap_indices :=
    group_indices "Market Cap Category" name selected_stocks returns_columns in
  match cap_indices with
  | [] => (sc', constraints)
  | _ => (sc', (constraints ++ [mkConstraint Ineq (BucketCap cap_indices)])%list)
  end.

Definition cap_types : list string := ["Large-Cap"; "Mid-Cap"; "Small-Cap"].

(** The constraint list handed to the solver, with the scope in which the
    solver calls the constraint functions. *)
Definition build_constraints (selected_stocks : DataFrame) (returns_columns : list cell)
    (sc : Scope) : Scope * list Constraint :=
  let st0 := (sc, [mkConstraint Eq_ SumToOne]) in
  let st1 :=
    fold_left (industry_step selected_stocks returns_columns)
              (industries_of selected_stocks) st0 in
  fold_left (cap_step selected_stocks returns_columns) cap_types st1.

(** The constraints one loop appends: one per group that has a column in
    the returns table, holding the indices of that group. *)
Definition group_constraints (mk : list nat -> ConstraintFun) (col : string)
    (names : list string) (selected_stocks : DataFrame) (returns_columns : list cell)
  : list Constraint :=
  flat_map (fun name =>
              match group_indices col name selected_stocks returns_columns with
              | [] => []
              | idx => [mkConstraint Ineq (mk idx)]
              end) names.

(** The value the solver obtains from the [k]-th constraint at [x]. *)
Definition constraint_value (selected_stocks : DataFrame) (returns_columns : list cell)
    (sc : Scope) (k : nat) (x : list Q) : option Q :=
  let '(sc', constraints) := build_constraints selected_stocks returns_columns sc in
  match nth_error constraints k with
  | Some c => call sc' (fun_ c) x
  | None => None
  end.


End Optimizer.

(** ** PortfolioOptimizer: post-processing of a successful solve *)

Module PostProcess.

(** [result.x / np.sum(result.x)]. *)
Definition optimal_weights (x : list Q) : list Q :=
  map (fun v => v / Qsum x)%Q x.

(** Rounding to the nearest integer, halves to the even one. *)
Definition rint (q : Q) : Z :=
  let f := Qfloor q in
  let d := (q - inject_Z f)%Q in
  if Qlt_bool d (1 # 2) then f
  else if Qlt_bool (1 # 2) d then (f + 1)%Z
  else if Z.even f then f else (f + 1)%Z.

(** [round(2)]. *)
Definition round2 (q : Q) : Q := (inject_Z (rint (q * 100)) / 100)%Q.

(** [np.argmax]: the first index of the largest value. *)
Fixpoint argmax_from (i best_i : nat) (best : Q) (l : list Q) : nat :=
  match l with
  | [] => best_i
  | y :: l' =>
      if Qlt_bool best y then argmax_from (S i) i y l'
      else argmax_from (S i) best_i best l'
  end.

Definition argmax (l : list Q) : nat :=
  match l with
  | [] => 0
  | y :: l' => argmax_from 1 0 y l'
  end.

(** [weights_pct = (optimal_weights * 100).round(2)] followed by
    [weights_pct[np.argmax(weights_pct)] += 100 - weights_pct.sum()]. *)
Definition rounded_pct (x : list Q) : list Q :=
  map (fun w => round2 (w * 100)) (optimal_weights x).

Definition adjust (pct : list Q) : list Q :=
  let i := argmax pct in
  <[i := (nth i pct 0 + (100 - Qsum pct))%Q]> pct.

Definition weights_pct (x : list Q) : list Q := adjust (rounded_pct x).

(** A row of [portfolio_results]; the descriptive columns (Stock,
    Segment, Market Cap Category) are looked up by ticker and play no
    part in the weights. *)
Record PortfolioRow : Type := mkRow {
  Ticker : string;
  Weight : Q
}.

Fixpoint zip_rows (tickers : list string) (ws : list Q) : list PortfolioRow :=
  match tickers, ws with
  | t :: ts, w :: ws' => mkRow t w :: zip_rows ts ws'
  | _, _ => []
  end.

(** The per-asset rows: filtered by [Weight in % > 0.01], sorted by
    weight, largest first. *)
Definition asset_rows (tickers : list string) (x : list Q) : list PortfolioRow :=
  ScoreEngine.sort_desc_by (fun r => Some (Weight r))
    (List.filter (fun r => Qlt_bool (1 # 100) (Weight r))
                 (zip_rows tickers (weights_pct x))).

Definition total_row : PortfolioRow := mkRow "Total" 100.

(** [pd.concat([portfolio_results, total_row])]. *)
Definition portfolio_results (tickers : list string) (x : list Q) : list PortfolioRow :=
  (asset_rows tickers x ++ [total_row])%list.

Definition weight_sum (rs : list PortfolioRow) : Q := Qsum (map Weight rs).

End PostProcess.

(** ** The pipeline over the session state

    [st.session_state] holds references to the frames the stages pass on;
    the frames live in a heap, so that two names for one frame see each
    other's in-place assignments. *)

Module Pipeline.

Inductive pyval : Type :=
| VNone
| VBool (b : bool)
| VRef (l : nat)
| VCols (cols : list string)
| VWeights (ws : gmap string Q)
| VReturns (r : ReturnsAnalyzer.ReturnsFrame)
| VMatrix (m : list (list num))
| VMetrics (total_trading_days : nat).

Record World : Type := mkWorld {
  heap : gmap nat DataFrame;
  next : nat;
  session_state : gmap string pyval
}.

(** [initialize_session_state], for the entries the stages use. *)
Definition initial_world : World :=
  mkWorld ∅ 0
    (list_to_map
       [("cleaned_data", VNone); ("normalized_data", VNone);
        ("normalized_columns", VNone); ("normalization_completed", VBool false);
        ("weights", VWeights ∅); ("ranked_data", VNone);
        ("selected_stocks", VNone); ("returns_data", VNone);
        ("covariance_matrix", VNone); ("trading_days_metrics", VNone)]).

(** A new frame object ([copy()], or the result of an operation that
    builds a frame). *)
Definition alloc (df : DataFrame) (w : World) : nat * World :=
  (next w, mkWorld (<[next w := df]> (heap w)) (S (next w)) (session_state w)).

(** An in-place change of the frame at [l]. *)
Definition update (l : nat) (f : DataFrame -> DataFrame) (w : World) : World :=
  mkWorld (alter f l (heap w)) (next w) (session_state w).

Definition set_state (key : string) (v : pyval) (w : World) : World :=
  mkWorld (heap w) (next w) (<[key := v]> (session_state w)).

Definition frame_at (key : string) (w : World) : option (nat * DataFrame) :=
  match session_state w !! key with
  | Some (VRef l) =>
      match heap w !! l with
      | Some df => Some (l, df)
      | None => None
      end
  | _ => None
  end.

(** Step 1: the uploaded table is cleaned and the cleaned table kept when
    it has rows. *)
Definition handle_data_import (df : DataFrame) (w : World) : World :=
  let '(df_cleaned, _) := Cleaner.clean_data df in
  if (0 <? len df_cleaned)%nat then
    let '(l, w1) := alloc df_cleaned w in
    set_state "cleaned_data" (VRef l) w1
  else w.

(** Step 2, with the button pressed. *)
Definition handle_normalization (columns_to_normalize columns_to_invert : list string)
    (w : World) : World :=
  match frame_at "cleaned_data" w with
  | None => w
  | Some (_, df) =>
      match columns_to_normalize with
      | [] => w
      | _ =>
          let '(l, w1) :=
            alloc (Normalizer.normalize_data df columns_to_normalize columns_to_invert) w in
          set_state "normalization_completed" (VBool true)
            (set_state "normalized_columns" (VCols columns_to_normalize)
               (set_state "normalized_data" (VRef l) w1))
      end
  end.

Definition total_weight (cols : list string) (weights : gmap string Q) : Q :=
  Qsum (map (ScoreEngine.weight_of weights) cols).

(** The two in-place assignments of step 3 on the frame [df]. *)
Definition add_scores (cols : list string) (weights : gmap string Q)
    (df : DataFrame) : DataFrame :=
  let df1 :=
    assign "Composite Score" Numeric
      (map Num (ScoreEngine.calculate_composite_score df cols weights)) df in
  assign "Rank" Numeric
    (map of_num (ScoreEngine.rank_series (col_values "Composite Score" df1))) df1.

(** Step 3, with the button pressed: [df] is the frame that
    [normalized_data] refers to, not a copy of it. *)
Definition handle_composite_score (weights : gmap string Q) (w : World) : World :=
  match session_state w !! "normalization_completed",
        session_state w !! "normalized_columns",
        frame_at "normalized_data" w with
  | Some (VBool true), Some (VCols normalized_columns), Some (l, _) =>
      if Qlt_bool (1 # 10) (Qabs (total_weight normalized_columns weights - 100))
      then w
      else
        let w1 := update l (add_scores normalized_columns weights) w in
        match heap w1 !! l with
        | Some df =>
            let '(l', w2) := alloc (ScoreEngine.sort_values_desc "Composite Score" df) w1 in
            set_state "weights" (VWeights weights)
              (set_state "ranked_data" (VRef l') w2)
        | None => w1
        end
  | _, _, _ => w
  end.









End Pipeline.

(** ** Inputs used in the examples below *)

Module Examples.

(** A table of 100 rows: the first 10 have a negative "PE", the next 5
    (disjoint from them) have a missing "ROE". *)
Definition scenario_row (i : nat) : gmap string cell :=
  list_to_map
    [("Stock", Str "S");
     ("PE", if (i <? 10)%nat then Num (-1) else Num 5);
     ("ROE", if ((10 <=? i) && (i <? 15))%nat then NaN else Num 3)].

Definition scenario_table : DataFrame :=
  mkDF [("Stock", Object); ("PE", Numeric); ("ROE", Numeric)]
       (map scenario_row (seq 0 100)).

(** A table all of whose rows are invalid. *)
Definition all_invalid_table : DataFrame :=
  mkDF [("Stock", Object); ("PE", Numeric)]
       [list_to_map [("Stock", Str "A"); ("PE", Num (-2))];
        list_to_map [("Stock", Str "B"); ("PE", NaN)];
        list_to_map [("Stock", Str "C"); ("PE", Num (-7))]].

(** A table with the single column [1, 2, 3, 4, 5]. *)
Definition five_values : DataFrame :=
  mkDF [("x", Numeric)]
       (map (fun q => list_to_map [("x", Num q)]) [1; 2; 3; 4; 5]%Q).

(** A table with a constant column. *)
Definition constant_values : DataFrame :=
  mkDF [("x", Numeric)]
       (map (fun q => list_to_map [("x", Num q)]) [7 # 2; 7 # 2; 7 # 2]%Q).

(** A ranked table of four assets, two of them tied. *)
Definition ranked_row (stock : string) (score : Q) (cap : cell) : gmap string cell :=
  list_to_map
    [("Stock", Str stock); ("Composite Score", Num score);
     ("Market Capitalization", cap)].

Definition ranked_table : DataFrame :=
  mkDF [("Stock", Object); ("Composite Score", Numeric);
        ("Market Capitalization", Numeric)]
       [ranked_row "A" (9 # 10) (Num 100000);
        ranked_row "B" (1 # 2) (Num 50000);
        ranked_row "C" (1 # 2) NaN;
        ranked_row "D" (1 # 5) (Num 1000)].









(** A selected-stocks table as the optimizer finds it, the columns of
    the returns table, and caps that differ between the groups: no
    Small-Cap asset is selected, so its cap is 0. *)
Definition stock_row (stock symbol industry_name category : string)
  : gmap string cell :=
  list_to_map
    [("Stock", Str stock); ("Symbol", Str symbol);
     ("Industry", Str industry_name); ("Market Cap Category", Str category)].

Definition selected_frame : DataFrame :=
  mkDF [("Stock", Object); ("Symbol", Object); ("Industry", Object);
        ("Market Cap Category", Object)]
       [stock_row "Gamma" "GAMMA" "Pharma" "Large-Cap";
        stock_row "Alpha" "ALPHA" "IT" "Large-Cap";
        stock_row "Beta" "BETA" "Pharma" "Mid-Cap"].

Definition returns_columns : list cell := [Str "ALPHA"; Str "BETA"; Str "GAMMA"].

Definition scope0 : Optimizer.Scope :=
  Optimizer.mkScope None None
    (list_to_map [("Pharma", 8 # 10); ("IT", 4 # 10)]%Q)
    (list_to_map [("Large-Cap", 6667 # 10000); ("Mid-Cap", 3333 # 10000);
                  ("Small-Cap", 0)]%Q).

Definition trial_weights : list Q := [3 # 10; 3333 # 10000; 3667 # 10000]%Q.

(** A solution with one weight of a hundredth of a percent. *)
Definition solved_weights : list Q := [9999 # 10000; 1 # 10000]%Q.

End Examples.

(** ** Data import: the summary shown after cleaning *)

Module DataImport.

Import Cleaner.

(** The test [total_removed / initial_rows > 0.2] of
    [handle_data_import], reached only when [removed_rows] is not empty;
    the division of two Python integers raises ZeroDivisionError
    ([None]) for a zero divisor. *)
Definition significant_removal (stats : CleaningStats) : option bool :=
  match map_to_list (removed_rows stats) with
  | [] => Some false
  | _ :: _ =>
      if (initial_rows stats =? 0)%nat then None
      else Some (Qlt_bool (2 # 10)
                   (inject_Z (Z.of_nat (total_removed stats))
                    / inject_Z (Z.of_nat (initial_rows stats))))
  end.

End DataImport.

(** ** Relations between series, for the statements on whole columns *)

Module Series.

(** The same values, NaN at the same places. *)
Definition same (x y : num) : Prop :=
  match x, y with
  | Some a, Some b => (a == b)%Q
  | None, None => True
  | _, _ => False
  end.

End Series.

(** ** Orders on rows, for the statements on sorted tables *)

Module Orders.

(** [a] may stand before [b] in a table sorted by [key], largest first
    and NaN last. *)
Definition in_desc_order {A} (key : A -> num) (a b : A) : Prop :=
  match key a, key b with
  | Some x, Some y => (y <= x)%Q
  | _, None => True
  | None, Some _ => False
  end.

End Orders.

(** ** Entries of a matrix *)

Module Matrix.

(** [m.iloc[i, j]], NaN outside the matrix. *)
Definition entry (m : list (list num)) (i j : nat) : num :=
  match nth_error m i with
  | Some row =>
      match nth_error row j with
      | Some x => x
      | None => None
      end
  | None => None
  end.

End Matrix.

(** ** Session defaults: [initialize_session_state] *)

Module Session.

(** The values of the session state: the defaults, and any other
    object a stage has stored (a table, a dict of weights). *)
Inductive pydefault : Type :=
| PNone
| PInt (n : Z)
| PBool (b : bool)
| PEmptyDict
| PObject (id : nat).

Definition state_vars : list (string * pydefault) :=
  [("step", PInt 1); ("data", PNone); ("cleaned_data", PNone);
   ("normalized_data", PNone); ("normalized_columns", PNone);
   ("normalization_completed", PBool false); ("weights", PEmptyDict);
   ("ranked_data", PNone); ("selected_stocks", PNone); ("returns_data", PNone);
   ("closing_prices", PNone); ("covariance_matrix", PNone);
   ("trading_days_metrics", PNone)].

(** One iteration of [for var, default in state_vars.items()]: the
    default is stored only when [var] is not in the session state. *)
Definition set_default {V} (session_state : gmap string V) (item : string * V)
  : gmap string V :=
  match session_state !! fst item with
  | Some _ => session_state
  | None => <[fst item := snd item]> session_state
  end.

Definition initialize_with {V} (vars : list (string * V))
    (session_state : gmap string V) : gmap string V :=
  fold_left set_default vars session_state.

Definition initialize_session_state (session_state : gmap string pydefault)
  : gmap string pydefault :=
  initialize_with state_vars session_state.

(** [key not in st.session_state]. *)
Definition not_in {V} (key : string) (session_state : gmap string V) : bool :=
  match session_state !! key with
  | Some _ => false
  | None => true
  end.

(** The tests at the head of [handle_stock_selection],
    [handle_returns_analysis] and [handle_portfolio_optimization]: when
    one is true the stage shows its warning and returns. *)
Definition stock_selection_returns (session_state : gmap string pydefault) : bool :=
  not_in "ranked_data" session_state.

Definition returns_analysis_returns (session_state : gmap string pydefault) : bool :=
  not_in "selected_stocks" session_state.

Definition portfolio_optimization_returns (session_state : gmap string pydefault)
  : bool :=
  not_in "returns_data" session_state || not_in "covariance_matrix" session_state.

End Session.

(** ** PortfolioOptimizer: what is handed to the solver *)

Module SolverInput.

(** A constraint that can be evaluated at a vector of [n] weights: the
    equality on the sum, or an inequality over a non-empty list of
    increasing positions below [n]. *)
Definition well_formed (n : nat) (c : Optimizer.Constraint) : Prop :=
  match Optimizer.fun_ c with
  | Optimizer.SumToOne => Optimizer.type_ c = Optimizer.Eq_
  | Optimizer.IndustryCap idx | Optimizer.BucketCap idx =>
      Optimizer.type_ c = Optimizer.Ineq /\ idx <> []
      /\ Forall (fun k => k < n) idx /\ Sorted lt idx
  end.

End SolverInput.

(** ** ReturnsAnalyzer: the symbol that is downloaded *)

Module Download.

(** The suffix of [yahoo_symbol]: [".NS"] when
    [symbol in selected_stocks['NSE Code'].values], else [".BO"]. *)
Definition yahoo_suffix (symbol : cell) (selected_stocks : DataFrame) : string :=
  if existsb (fun code => cell_eqb code symbol) (col_cells "NSE Code" selected_stocks)
  then ".NS" else ".BO".

End Download.

(** ** The statistics named by the specification *)

Module Statistics.



End Statistics.

(** ** Double precision

    A double is a rational [z * 2^e] with [|z| <= 2^53] and
    [e >= -1074]; an operation on doubles gives the double nearest to
    its exact result, a tie going to the even significand.  Overflow is
    left out: the numbers of the tables are far below [2^1024]. *)

Module Binary64.

Definition pow2 (e : Z) : Q := (2 ^ e)%Q.

(** The integer nearest to [q], a tie going to the even one. *)
Definition nearest_even (q : Q) : Z :=
  let f := Qfloor q in
  let d := (q - inject_Z f)%Q in
  if Qlt_bool d (1 # 2) then f
  else if Qlt_bool (1 # 2) d then (f + 1)%Z
  else if Z.even f then f else (f + 1)%Z.

(** The integer [k] with [2^k <= |q| < 2^(k+1)], for [q] other than 0. *)
Definition ilog2 (q : Q) : Z :=
  let k := (Z.log2 (Z.abs (Qnum q)) - Z.log2 (Zpos (Qden q)))%Z in
  if Qle_bool (pow2 k) (Qabs q) then k else (k - 1)%Z.

(** The exponent of the last place of the doubles around [q]: 53
    significant bits, and no exponent below that of the subnormals. *)
Definition exponent (q : Q) : Z := Z.max (ilog2 q - 52) (-1074).

(** [q] rounded to a multiple of [2^e]. *)
Definition rounded (q : Q) (e : Z) : Q :=
  (inject_Z (nearest_even (q / pow2 e)) * pow2 e)%Q.

(** The double nearest to [q]. *)
Definition binary64 (q : Q) : Q :=
  if Qeq_bool q 0 then 0%Q else Qred (rounded q (exponent q)).


(** Arithmetic without rounding, for comparison. *)
Definition exact (q : Q) : Q := q.

(** What the statements below use of a rounding: it respects equality
    of rationals, keeps 0, commutes with the sign, keeps what it has
    rounded, and is monotone. *)
Record rounding (rnd : Q -> Q) : Prop := mkRounding {
  rnd_proper : forall x y, (x == y)%Q -> (rnd x == rnd y)%Q;
  rnd_zero : (rnd 0 == 0)%Q;
  rnd_opp : forall x, (rnd (- x) == - rnd x)%Q;
  rnd_idem : forall x, (rnd (rnd x) == rnd x)%Q;
  rnd_mono : forall x y, (x <= y)%Q -> (rnd x <= rnd y)%Q
}.

(** [np.finfo(np.float64).eps]. *)
Definition eps : Q := 1 # 4503599627370496.

End Binary64.

(** ** Normalizer, as executed: [normalize_data] with every operation
    rounded by [rnd] *)

Module FloatNormalizer.

Local Open Scope Q_scope.

(** [-1 * series]. *)
Definition negate (rnd : Q -> Q) (x : num) : num :=
  match x with
  | Some q => Some (rnd (-1 * q))%Q
  | None => None
  end.

(** scikit-learn's [_handle_zeros_in_scale] on an array: a range below
    [10 * eps] counts as constant and is replaced by 1. *)
Definition handle_zeros_in_scale (scale : Q) : Q :=
  if Qlt_bool scale (10 * Binary64.eps) then 1%Q else scale.

(** [MinMaxScaler().fit_transform] on a single column, with the default
    feature range (0, 1): [data_range = data_max - data_min],
    [scale_ = (1 - 0) / _handle_zeros_in_scale(data_range)],
    [min_ = 0 - data_min * scale_], then [X *= scale_] and [X += min_].
    NaN is disregarded in the fit and kept by the transform; a column
    without rows raises ValueError ([None]). *)
Definition fit_transform (rnd : Q -> Q) (xs : list num) : option (list num) :=
  match xs with
  | [] => None
  | _ :: _ =>
      match dropna xs with
      | [] => Some xs
      | v :: vs =>
          let data_min := Qmin_list v vs in
          let data_max := Qmax_list v vs in
          let data_range := rnd (data_max - data_min) in
          let scale_ := rnd (1 / handle_zeros_in_scale data_range) in
          let min_ := rnd (0 - rnd (data_min * scale_)) in
          Some (map (fun x => match x with
                              | Some q => Some (rnd (rnd (q * scale_) + min_))%Q
                              | None => None
                              end) xs)
      end
  end.

(** The body of the loop for one column. *)
Definition normalize_step (rnd : Q -> Q) (columns_to_invert : list string)
    (df_normalized : DataFrame) (column : string) : option DataFrame :=
  let xs := col_values column df_normalized in
  let pre :=
    if Normalizer.inb column columns_to_invert then map (negate rnd) xs else xs in
  match fit_transform rnd pre with
  | Some ys => Some (assign column Numeric (map of_num ys) df_normalized)
  | None => None
  end.

Fixpoint normalize_loop (rnd : Q -> Q) (columns_to_invert : list string)
    (columns_to_normalize : list string) (df_normalized : DataFrame)
  : option DataFrame :=
  match columns_to_normalize with
  | [] => Some df_normalized
  | column :: rest =>
      match normalize_step rnd columns_to_invert df_normalized column with
      | Some df' => normalize_loop rnd columns_to_invert rest df'
      | None => None
      end
  end.

Definition normalize_data (rnd : Q -> Q) (df : DataFrame)
    (columns_to_normalize columns_to_invert : list string) : option DataFrame :=
  normalize_loop rnd columns_to_invert columns_to_normalize df.

(** The scaling of the statements: with the least value [mn] and the
    greatest value [mx] of a column, [scale_] and [min_] as the scaler
    computes them, and the image of a value. *)
Definition scale_of (rnd : Q -> Q) (mn mx : Q) : Q := rnd (1 / rnd (mx - mn)).

Definition offset_of (rnd : Q -> Q) (mn mx : Q) : Q :=
  rnd (0 - rnd (mn * scale_of rnd mn mx)).

Definition image (rnd : Q -> Q) (mn mx a : Q) : Q :=
  rnd (rnd (a * scale_of rnd mn mx) + offset_of rnd mn mx).

Definition scaled (rnd : Q -> Q) (mn mx : Q) (x y : num) : Prop :=
  match x, y with
  | Some a, Some b => (b == image rnd mn mx a)%Q
  | None, None => True
  | _, _ => False
  end.


End FloatNormalizer.

(** ** Selector, as executed: the percentile cutoff with every operation
    rounded by [rnd] *)

Module FloatSelector.

Local Open Scope Q_scope.

(** numpy's [_lerp(a, b, t)]: [a + (b - a) * t], and
    [b - (b - a) * (1 - t)] where [t >= 0.5]. *)
Definition lerp (rnd : Q -> Q) (a b t : Q) : Q :=
  let diff_b_a := rnd (b - a) in
  if Qle_bool (1 # 2) t
  then rnd (b - rnd (diff_b_a * rnd (1 - t)))
  else rnd (a + rnd (diff_b_a * t)).

(** numpy's [percentile(a, q, method='linear')].  The quantile is
    [q / 100], the virtual index [(n - 1) * quantile]; the indexes below
    and above it are its floor and the next one, both replaced by -1
    (the last element) when the virtual index reaches [n - 1]; [gamma]
    is the virtual index less the index below.  NaN in the input, or an
    empty input, gives NaN. *)
Definition percentile (rnd : Q -> Q) (a : list num) (q : Z) : num :=
  if existsb Selector.is_nan a then None
  else
    match sort_asc (dropna a) with
    | [] => None
    | (x :: _) as arr =>
        let n := length arr in
        let quantile := rnd (inject_Z q / 100) in
        let virtual_index := rnd (inject_Z (Z.of_nat (n - 1)%nat) * quantile) in
        let above_bounds := Qle_bool (inject_Z (Z.of_nat (n - 1)%nat)) virtual_index in
        let previous_index := if above_bounds then (-1)%Z else Qfloor virtual_index in
        let next_index := if above_bounds then (-1)%Z else (Qfloor virtual_index + 1)%Z in
        let at_index (i : Z) :=
          if (i <? 0)%Z then nth (n - Z.to_nat (- i))%nat arr x else nth (Z.to_nat i) arr x in
        let gamma := rnd (virtual_index - inject_Z previous_index) in
        Some (lerp rnd (at_index previous_index) (at_index next_index) gamma)
    end.

Definition percentile_value (rnd : Q -> Q) (df_ranked : DataFrame)
    (percentile_threshold : Z) : num :=
  percentile rnd (col_values "Composite Score" df_ranked) percentile_threshold.

Definition select_stocks (rnd : Q -> Q) (df_ranked : DataFrame)
    (percentile_threshold : Z) : DataFrame :=
  let df_selected :=
    select_rows (Selector.above (percentile_value rnd df_ranked percentile_threshold))
                df_ranked in
  assign "Market Cap Category" Object
    (map (fun x => Str (Selector.market_cap_category x))
         (col_values "Market Capitalization" df_selected))
    df_selected.

(** The cutoff of the statements: for the ascending scores [s], [c] is
    the interpolation between the scores at the floor [j] of the
    virtual index and at the next place, as numpy evaluates it. *)
Definition interpolated (rnd : Q -> Q) (s : list Q) (p : Z) (c : Q) : Prop :=
  let top := inject_Z (Z.of_nat (length s - 1)%nat) in
  let virtual_index := rnd (top * rnd (inject_Z p / 100)) in
  if Qle_bool top virtual_index
  then c = lerp rnd (List.last s 0%Q) (List.last s 0%Q) (rnd (virtual_index - inject_Z (-1)))
  else
    exists j : nat,
      Z.of_nat j = Qfloor virtual_index
      /\ (S j < length s)%nat
      /\ c = lerp rnd (nth j s 0%Q) (nth (S j) s 0%Q)
                  (rnd (virtual_index - inject_Z (Z.of_nat j))).

End FloatSelector.

(** ** Inputs of the examples in double precision *)

Module FloatExamples.

(** A table with the single column [1, 2, 3, 4, 5, 6]. *)
Definition six_values : DataFrame :=
  mkDF [("x", Numeric)]
       (map (fun q => list_to_map [("x", Num q)]) [1; 2; 3; 4; 5; 6]%Q).

(** A ranked table of 51 assets with the scores 0/64, 1/64, ..., 50/64. *)
Definition graded_table : DataFrame :=
  mkDF [("Stock", Object); ("Composite Score", Numeric);
        ("Market Capitalization", Numeric)]
       (map (fun i => Examples.ranked_row "S" (Z.of_nat i # 64) (Num 50000)) (seq 0 51)).

End FloatExamples.

(** * Proofs *)

(** ** Numbers and lists *)

Lemma Qlt_bool_iff (x y : Q) : Qlt_bool x y = true <-> (x < y)%Q.
Proof.
  unfold Qlt_bool. rewrite negb_true_iff. split.
  - intros H. apply Qnot_le_lt. intros Hle.
    apply Qle_bool_iff in Hle. congruence.
  - intros H. destruct (Qle_bool y x) eqn:E; [|reflexivity].
    apply Qle_bool_iff in E. exfalso. apply (Qlt_not_le _ _ H E).
Qed.

Lemma Qlt_bool_false_iff (x y : Q) : Qlt_bool x y = false <-> (y <= x)%Q.
Proof.
  unfold Qlt_bool. rewrite negb_false_iff. apply Qle_bool_iff.
Qed.

(** ** Cleaner *)

Section CleanerFacts.

Import Cleaner.

Lemma reasons_total_insert (removed : gmap string nat) (k : string) (n : nat) :
  removed !! k = None ->
  reasons_total (<[k := n]> removed) = n + reasons_total removed.
Proof.
  intros Hfresh. unfold reasons_total.
  rewrite map_fold_insert_L; [reflexivity| |exact Hfresh].
  intros; lia.
Qed.

Lemma neg_key_inj (c1 c2 : string) : neg_key c1 = neg_key c2 -> c1 = c2.
Proof. unfold neg_key. apply (inj (String.append _)). Qed.

Lemma null_key_inj (c1 c2 : string) : null_key c1 = null_key c2 -> c1 = c2.
Proof. unfold null_key. apply (inj (String.append _)). Qed.

Lemma neg_key_null_key (c1 c2 : string) : neg_key c1 <> null_key c2.
Proof. unfold neg_key, null_key. intros H. discriminate H. Qed.

(** Every row is counted once: as negative, as missing, or as kept. *)
Lemma split_counts (col : string) (rs : list (gmap string cell)) :
  mask_sum (fun r => lt_zero (at_col col r)) rs
  + mask_sum (fun r => isnull (at_col col r)) rs
  + length (List.filter (keep col) rs) = length rs.
Proof.
  unfold mask_sum, keep, notnull.
  induction rs as [|r rs IH]; [reflexivity|].
  cbn [List.filter].
  destruct (at_col col r) as [q| |s]; cbn [lt_zero isnull negb andb].
  - destruct (Qlt_bool q 0); cbn [negb andb length]; lia.
  - cbn [length]. lia.
  - cbn [length]. lia.
Qed.

Lemma keys_from_fresh visited removed col :
  keys_from visited removed -> ~ In col visited ->
  removed !! neg_key col = None /\ removed !! null_key col = None.
Proof.
  intros Hk Hnot. split.
  - destruct (removed !! neg_key col) eqn:E; [|reflexivity].
    destruct (Hk (neg_key col)) as [c [Hc [H|H]]]; [eauto| |].
    + apply neg_key_inj in H. subst. contradiction.
    + exfalso. eapply neg_key_null_key; eauto.
  - destruct (removed !! null_key col) eqn:E; [|reflexivity].
    destruct (Hk (null_key col)) as [c [Hc [H|H]]]; [eauto| |].
    + exfalso. eapply neg_key_null_key; eauto.
    + apply null_key_inj in H. subst. contradiction.
Qed.

Lemma clean_step_inv visited cur removed col cur' removed' :
  keys_from visited removed -> ~ In col visited ->
  clean_step (cur, removed) col = (cur', removed') ->
  keys_from (col :: visited) removed'
  /\ columns cur' = columns cur
  /\ reasons_total removed' + len cur' = reasons_total removed + len cur.
Proof.
  intros Hk Hnot Hstep. unfold clean_step in Hstep.
  destruct (is_numeric_dtype cur col).
  2:{ inversion Hstep; subst. split; [|split; reflexivity].
      intros k Hs. destruct (Hk k Hs) as [c [Hc Hor]].
      exists c. split; [right; exact Hc|exact Hor]. }
  destruct (keys_from_fresh _ _ _ Hk Hnot) as [Hneg Hnull].
  pose proof (split_counts col (rows cur)) as Hsplit.
  set (n1 := mask_sum (fun r => lt_zero (at_col col r)) (rows cur)) in *.
  set (n2 := mask_sum (fun r => isnull (at_col col r)) (rows cur)) in *.
  inversion Hstep; subst cur' removed'; clear Hstep.
  split; [|split; [reflexivity|]].
  - intros k Hs. 
    assert (Hcases : k = neg_key col \/ k = null_key col \/ is_Some (removed !! k)).
    { destruct (0 <? n2); destruct (0 <? n1);
        repeat (apply lookup_insert_is_Some in Hs; destruct Hs as [Hs|[_ Hs]]);
        subst; auto. }
    destruct Hcases as [->|[->|Hold]].
    + exists col. split; [left; reflexivity|left; reflexivity].
    + exists col. split; [left; reflexivity|right; reflexivity].
    + destruct (Hk k Hold) as [c [Hc Hor]]. exists c. split; [right; exact Hc|exact Hor].
  - unfold len, select_rows. cbn [rows].
    destruct (0 <? n1) eqn:E1; destruct (0 <? n2) eqn:E2;
      try apply Nat.ltb_lt in E1; try apply Nat.ltb_lt in E2;
      try apply Nat.ltb_ge in E1; try apply Nat.ltb_ge in E2.
    + rewrite reasons_total_insert.
      2:{ rewrite lookup_insert_ne; [exact Hnull|apply neg_key_null_key]. }
      rewrite reasons_total_insert by exact Hneg. lia.
    + rewrite reasons_total_insert by exact Hneg. lia.
    + rewrite reasons_total_insert by exact Hnull. lia.
    + lia.
Qed.

Lemma clean_loop_inv cols : forall visited cur removed cur' removed',
  keys_from visited removed -> List.NoDup cols ->
  (forall c, In c cols -> ~ In c visited) ->
  fold_left clean_step cols (cur, removed) = (cur', removed') ->
  columns cur' = columns cur
  /\ reasons_total removed' + len cur' = reasons_total removed + len cur.
Proof.
  induction cols as [|col cols IH]; intros visited cur removed cur' removed' Hk Hnd Hdisj Hfold.
  - cbn in Hfold. inversion Hfold; subst. split; reflexivity.
  - cbn [fold_left] in Hfold.
    destruct (clean_step (cur, removed) col) as [cur1 removed1] eqn:Hstep.
    inversion Hnd as [|? ? Hnotin Hnd']; subst.
    destruct (clean_step_inv visited cur removed col cur1 removed1 Hk) as (Hk1 & Hc1 & Hsum1);
      [apply Hdisj; left; reflexivity|exact Hstep|].
    destruct (IH (col :: visited) cur1 removed1 cur' removed' Hk1 Hnd') as (Hc & Hsum);
      [|exact Hfold|].
    + intros c Hc [Heq|Hin].
      * subst. contradiction.
      * apply (Hdisj c); [right; exact Hc|exact Hin].
    + split; [congruence|lia].
Qed.

End CleanerFacts.

Section CleanerReport.

Import Cleaner.

Lemma clean_loop_rows cols : forall df cur removed cur' removed',
  columns cur = columns df ->
  fold_left clean_step cols (cur, removed) = (cur', removed') ->
  rows cur' = List.filter (valid_in df cols) (rows cur).
Proof.
  induction cols as [|col cols IH]; intros df cur removed cur' removed' Hcols Hfold.
  - cbn in Hfold. inversion Hfold; subst. cbn.
    induction (rows cur') as [|r rs IHr]; [reflexivity|]. cbn. congruence.
  - cbn [fold_left] in Hfold.
    assert (Hnum : is_numeric_dtype cur col = is_numeric_dtype df col).
    { unfold is_numeric_dtype. rewrite Hcols. reflexivity. }
    unfold clean_step in Hfold at 2. rewrite Hnum in Hfold.
    destruct (is_numeric_dtype df col) eqn:E.
    + rewrite (IH df (select_rows (keep col) cur) _ _ _ Hcols Hfold).
      cbn [select_rows rows].
      clear -E. induction (rows cur) as [|r rs IHr]; [reflexivity|].
      cbn [List.filter valid_in forallb]. rewrite E.
      destruct (keep col r); cbn [andb List.filter].
      * fold (valid_in df cols r). destruct (valid_in df cols r); [f_equal|]; exact IHr.
      * exact IHr.
    + rewrite (IH df _ _ _ _ Hcols Hfold).
      clear -E. induction (rows cur) as [|r rs IHr]; [reflexivity|].
      cbn [List.filter valid_in forallb]. rewrite E. cbn [andb].
      fold (valid_in df cols r). destruct (valid_in df cols r); [f_equal|]; exact IHr.
Qed.

Lemma keys_from_empty : keys_from [] (∅ : gmap string nat).
Proof.
  intros k [v Hv]. rewrite lookup_empty in Hv. discriminate.
Qed.

(** C4.  For a table with distinct column labels, the cleaning report
    satisfies final = initial - (sum of the reason counts) and
    total_removed = initial - final, the cleaned table consisting of the
    valid rows; the 100-row scenario (10 negative in one column, 5
    disjoint missing in another) gives final_rows = 85 and
    total_removed = 15; and a table cleaned to zero rows still yields its
    report. *)
Theorem clean_data_report (df : DataFrame) :
  List.NoDup (labels df) ->
  let df_cleaned := fst (clean_data df) in
  let stats := snd (clean_data df) in
  rows df_cleaned = List.filter (valid_row df) (rows df)
  /\ initial_rows stats = len df
  /\ final_rows stats = len df_cleaned
  /\ final_rows stats + reasons_total (removed_rows stats) = initial_rows stats
  /\ final_rows stats = initial_rows stats - reasons_total (removed_rows stats)
  /\ total_removed stats = initial_rows stats - final_rows stats
  /\ (len Examples.scenario_table = 100
      /\ final_rows (snd (clean_data Examples.scenario_table)) = 85
      /\ total_removed (snd (clean_data Examples.scenario_table)) = 15)
  /\ (final_rows (snd (clean_data Examples.all_invalid_table)) = 0
      /\ total_removed (snd (clean_data Examples.all_invalid_table)) = 3).
Proof.
  intros Hnd. unfold clean_data.
  destruct (fold_left clean_step (columns_to_clean df) (df, ∅))
    as [cur removed] eqn:Hfold.
  cbn [fst snd initial_rows final_rows removed_rows total_removed].
  destruct (clean_loop_inv (columns_to_clean df) [] df ∅ cur removed) as [Hcols Hsum].
  - exact keys_from_empty.
  - unfold columns_to_clean. apply List.NoDup_filter. exact Hnd.
  - intros c _ [].
  - exact Hfold.
  - assert (Hzero : reasons_total (∅ : gmap string nat) = 0) by reflexivity.
    rewrite Hzero in Hsum.
    split; [unfold valid_row; eapply clean_loop_rows; [reflexivity|exact Hfold]|].
    split; [reflexivity|]. split; [reflexivity|].
    split; [lia|]. split; [lia|]. split; [reflexivity|].
    split; vm_compute; repeat split; reflexivity.
Qed.

(** The report of the table that is cleaned to zero rows. *)
Lemma clean_data_report_witness :
  let stats := snd (clean_data Examples.all_invalid_table) in
  final_rows stats + reasons_total (removed_rows stats) = initial_rows stats.
Proof.
  refine (proj1 (proj2 (proj2 (proj2
            (clean_data_report Examples.all_invalid_table _))))).
  repeat constructor; cbn; intuition discriminate.
Defined.

End CleanerReport.

(** ** Frames *)

Section FrameFacts.

Lemma at_num_insert_same (col : string) (x : num) (r : gmap string cell) :
  at_num col (<[col := of_num x]> r) = x.
Proof.
  unfold at_num, at_col. rewrite lookup_insert_eq. destruct x; reflexivity.
Qed.

Lemma at_col_insert_other (col c : string) (v : cell) (r : gmap string cell) :
  col <> c -> at_col c (<[col := v]> r) = at_col c r.
Proof.
  intros Hne. unfold at_col. rewrite lookup_insert_ne by exact Hne. reflexivity.
Qed.

Lemma assign_rows_length (col : string) (vs : list cell) (rs : list (gmap string cell)) :
  length (assign_rows col vs rs) = length rs.
Proof.
  revert vs. induction rs as [|r rs IH]; intros [|v vs]; cbn; auto.
Qed.

Lemma len_assign (col : string) (d : dtype) (vs : list cell) (df : DataFrame) :
  len (assign col d vs df) = len df.
Proof. apply assign_rows_length. Qed.

Lemma col_values_assign_same (col : string) (d : dtype) (xs : list num) (df : DataFrame) :
  length xs = len df ->
  col_values col (assign col d (map of_num xs) df) = xs.
Proof.
  unfold col_values, assign, len. cbn [rows].
  generalize (rows df) as rs. intros rs. revert xs.
  induction rs as [|r rs IH]; intros [|x xs] Hlen; cbn in *; try discriminate.
  - reflexivity.
  - rewrite at_num_insert_same. f_equal. apply IH. lia.
Qed.

Lemma col_cells_assign_other (col c : string) (d : dtype) (vs : list cell)
    (df : DataFrame) :
  col <> c -> col_cells c (assign col d vs df) = col_cells c df.
Proof.
  intros Hne. unfold col_cells, assign. cbn [rows].
  generalize (rows df) as rs. intros rs. revert vs.
  induction rs as [|r rs IH]; intros [|v vs]; cbn; try reflexivity.
  rewrite at_col_insert_other by exact Hne. f_equal. apply IH.
Qed.

Lemma col_values_cells (c : string) (df : DataFrame) :
  col_values c df =
  map (fun x => match x with Num q => Some q | _ => None end) (col_cells c df).
Proof.
  unfold col_values, col_cells. rewrite map_map. reflexivity.
Qed.

Lemma col_values_assign_other (col c : string) (d : dtype) (vs : list cell)
    (df : DataFrame) :
  col <> c -> col_values c (assign col d vs df) = col_values c df.
Proof.
  intros Hne. rewrite !col_values_cells.
  rewrite col_cells_assign_other by exact Hne. reflexivity.
Qed.

Lemma col_values_length (c : string) (df : DataFrame) :
  length (col_values c df) = len df.
Proof. unfold col_values, len. apply length_map. Qed.

End FrameFacts.

(** ** Normalizer *)

Section NormalizerFacts.

Import Normalizer.

Lemma fit_transform_length (xs : list num) :
  length (fit_transform xs) = length xs.
Proof.
  unfold fit_transform. destruct (dropna xs); [reflexivity|]. apply length_map.
Qed.

Lemma scale_column_length (b : bool) (xs : list num) :
  length (scale_column b xs) = length xs.
Proof.
  unfold scale_column. rewrite fit_transform_length.
  destruct b; [apply length_map|reflexivity].
Qed.

Lemma normalize_step_same inv df col :
  col_values col (normalize_step inv df col)
  = scale_column (inb col inv) (col_values col df).
Proof.
  unfold normalize_step. apply col_values_assign_same.
  rewrite scale_column_length. apply col_values_length.
Qed.

Lemma normalize_step_other inv df col c :
  col <> c -> col_values c (normalize_step inv df col) = col_values c df.
Proof. intros Hne. unfold normalize_step. apply col_values_assign_other. exact Hne. Qed.

Lemma normalize_loop_other inv cols c : forall df,
  ~ In c cols ->
  col_values c (fold_left (normalize_step inv) cols df) = col_values c df.
Proof.
  induction cols as [|col cols IH]; intros df Hnot; [reflexivity|].
  cbn [fold_left]. rewrite IH.
  - apply normalize_step_other. intros ->. apply Hnot. left. reflexivity.
  - intros Hin. apply Hnot. right. exact Hin.
Qed.

(** Each selected column is scaled from its own values only. *)
Lemma normalize_data_column df cols inv col :
  List.NoDup cols -> In col cols ->
  col_values col (normalize_data df cols inv)
  = scale_column (inb col inv) (col_values col df).
Proof.
  unfold normalize_data. revert df.
  induction cols as [|c cols IH]; intros df Hnd Hin; [destruct Hin|].
  inversion Hnd as [|? ? Hnotin Hnd']; subst. cbn [fold_left].
  destruct (string_dec c col) as [->|Hne].
  - rewrite normalize_loop_other by exact Hnotin. apply normalize_step_same.
  - destruct Hin as [->|Hin]; [contradiction|].
    rewrite IH by assumption. f_equal. apply normalize_step_other. exact Hne.
Qed.

End NormalizerFacts.

Section ScalerFacts.

Import Normalizer.

Lemma Qmin_list_lower (l : list Q) : forall x,
  (Qmin_list x l <= x)%Q /\ (forall y, In y l -> Qmin_list x l <= y)%Q.
Proof.
  unfold Qmin_list. induction l as [|z l IH]; intros x; cbn [fold_left].
  - split; [apply Qle_refl|intros y []].
  - destruct (IH (Qmin x z)) as [H1 H2]. split.
    + eapply Qle_trans; [exact H1|apply Q.le_min_l].
    + intros y [<-|Hy].
      * eapply Qle_trans; [exact H1|apply Q.le_min_r].
      * apply H2. exact Hy.
Qed.

Lemma Qmin_list_attained (l : list Q) : forall x,
  exists y, In y (x :: l) /\ (y == Qmin_list x l)%Q.
Proof.
  unfold Qmin_list. induction l as [|z l IH]; intros x; cbn [fold_left].
  - exists x. split; [left; reflexivity|reflexivity].
  - destruct (IH (Qmin x z)) as [y [[Hy|Hy] Heq]].
    + destruct (Q.min_spec x z) as [[_ Hm]|[_ Hm]].
      * exists x. split; [left; reflexivity|]. rewrite <- Heq, <- Hy, Hm. reflexivity.
      * exists z. split; [right; left; reflexivity|]. rewrite <- Heq, <- Hy, Hm. reflexivity.
    + exists y. split; [right; right; exact Hy|exact Heq].
Qed.

Lemma Qmax_list_upper (l : list Q) : forall x,
  (x <= Qmax_list x l)%Q /\ (forall y, In y l -> y <= Qmax_list x l)%Q.
Proof.
  unfold Qmax_list. induction l as [|z l IH]; intros x; cbn [fold_left].
  - split; [apply Qle_refl|intros y []].
  - destruct (IH (Qmax x z)) as [H1 H2]. split.
    + eapply Qle_trans; [apply Q.le_max_l|exact H1].
    + intros y [<-|Hy].
      * eapply Qle_trans; [apply Q.le_max_r|exact H1].
      * apply H2. exact Hy.
Qed.

Lemma Qmax_list_attained (l : list Q) : forall x,
  exists y, In y (x :: l) /\ (y == Qmax_list x l)%Q.
Proof.
  unfold Qmax_list. induction l as [|z l IH]; intros x; cbn [fold_left].
  - exists x. split; [left; reflexivity|reflexivity].
  - destruct (IH (Qmax x z)) as [y [[Hy|Hy] Heq]].
    + destruct (Q.max_spec x z) as [[_ Hm]|[_ Hm]].
      * exists z. split; [right; left; reflexivity|]. rewrite <- Heq, <- Hy, Hm. reflexivity.
      * exists x. split; [left; reflexivity|]. rewrite <- Heq, <- Hy, Hm. reflexivity.
    + exists y. split; [right; right; exact Hy|exact Heq].
Qed.

Lemma Qmin_list_is_min (x : Q) (l : list Q) : is_min (Qmin_list x l) (x :: l).
Proof.
  split; [apply Qmin_list_attained|].
  intros y [<-|Hy];
    [exact (proj1 (Qmin_list_lower l x))|exact (proj2 (Qmin_list_lower l x) y Hy)].
Qed.

Lemma Qmax_list_is_max (x : Q) (l : list Q) : is_max (Qmax_list x l) (x :: l).
Proof.
  split; [apply Qmax_list_attained|].
  intros y [<-|Hy];
    [exact (proj1 (Qmax_list_upper l x))|exact (proj2 (Qmax_list_upper l x) y Hy)].
Qed.

Lemma non_constant_lt (l : list Q) (mn mx : Q) :
  is_min mn l -> is_max mx l -> non_constant l -> (mn < mx)%Q.
Proof.
  intros [_ Hmin] [_ Hmax] (a & b & Ha & Hb & Hab).
  destruct (Qlt_le_dec mn mx) as [Hlt|Hle]; [exact Hlt|].
  exfalso. apply Hab.
  pose proof (Hmin a Ha). pose proof (Hmax a Ha).
  pose proof (Hmin b Hb). pose proof (Hmax b Hb).
  apply Qle_antisym; lra.
Qed.

Lemma scale_formula (q mn mx : Q) :
  ~ (mx - mn == 0)%Q ->
  (q * (1 / handle_zeros_in_scale (mx - mn))
   + (0 - mn * (1 / handle_zeros_in_scale (mx - mn)))
   == (q - mn) / (mx - mn))%Q.
Proof.
  intros Hne. unfold handle_zeros_in_scale.
  destruct (Qeq_bool (mx - mn) 0) eqn:E.
  - apply Qeq_bool_iff in E. contradiction.
  - field. exact Hne.
Qed.

Lemma fit_transform_scaled (xs : list num) (v : Q) (vs : list Q) :
  dropna xs = v :: vs ->
  (Qmin_list v vs < Qmax_list v vs)%Q ->
  Forall2 (scaled (Qmin_list v vs) (Qmax_list v vs)) xs (fit_transform xs).
Proof.
  intros Hd Hlt. unfold fit_transform. rewrite Hd.
  set (mn := Qmin_list v vs) in *. set (mx := Qmax_list v vs) in *.
  assert (Hne : ~ (mx - mn == 0)%Q) by (intros H; lra).
  clear Hd. induction xs as [|[q|] xs IH]; cbn [map]; constructor; auto.
  - cbn. apply scale_formula. exact Hne.
  - cbn. exact I.
Qed.

Lemma scaled_values (mn mx : Q) (xs ys : list num) :
  Forall2 (scaled mn mx) xs ys ->
  (forall y, In y (dropna ys) ->
     exists a, In a (dropna xs) /\ (y == (a - mn) / (mx - mn))%Q)
  /\ (forall a, In a (dropna xs) ->
     exists y, In y (dropna ys) /\ (y == (a - mn) / (mx - mn))%Q).
Proof.
  induction 1 as [|x y xs ys Hxy _ [IH1 IH2]]; [split; intros ? []|].
  destruct x as [a|], y as [b|]; cbn in Hxy; try contradiction; cbn [dropna].
  - split.
    + intros y [<-|Hy]; [exists a; split; [left; reflexivity|exact Hxy]|].
      destruct (IH1 y Hy) as [a' [Ha' He]]. exists a'. split; [right; exact Ha'|exact He].
    + intros a' [<-|Ha']; [exists b; split; [left; reflexivity|exact Hxy]|].
      destruct (IH2 a' Ha') as [y [Hy He]]. exists y. split; [right; exact Hy|exact He].
  - split; assumption.
Qed.

Lemma unit_interval (a mn mx : Q) :
  (mn < mx)%Q -> (mn <= a)%Q -> (a <= mx)%Q ->
  (0 <= (a - mn) / (mx - mn) <= 1)%Q.
Proof.
  intros Hlt H1 H2. assert (Hpos : (0 < mx - mn)%Q) by lra. split.
  - apply Qle_shift_div_l; [exact Hpos|lra].
  - apply Qle_shift_div_r; [exact Hpos|lra].
Qed.

Lemma dropna_negate (xs : list num) :
  dropna (map negate xs) = map (fun q => (-1 * q)%Q) (dropna xs).
Proof.
  induction xs as [|[q|] xs IH]; cbn; [reflexivity| |exact IH].
  f_equal. exact IH.
Qed.

Lemma non_constant_negate (l : list Q) :
  non_constant l -> non_constant (map (fun q => (-1 * q)%Q) l).
Proof.
  intros (a & b & Ha & Hb & Hab).
  exists (-1 * a)%Q, (-1 * b)%Q. repeat split; try (apply in_map; assumption).
  intros H. apply Hab. lra.
Qed.

End ScalerFacts.

Section NormalizerTheorems.

Import Normalizer.

Lemma all_present_dropna (c : Q) (xs : list num) :
  Forall (fun x => exists q, x = Some q /\ (q == c)%Q) xs ->
  length (dropna xs) = length xs /\ forall q, In q (dropna xs) -> (q == c)%Q.
Proof.
  induction 1 as [|x xs (q & -> & Hq) _ [IHl IHq]]; [split; [reflexivity|intros ? []]|].
  cbn. split; [lia|]. intros q' [<-|Hq']; [exact Hq|apply IHq; exact Hq'].
Qed.

Lemma fit_transform_constant (c : Q) (xs : list num) :
  Forall (fun x => exists q, x = Some q /\ (q == c)%Q) xs ->
  Forall (fun y => exists q, y = Some q /\ (q == 0)%Q) (fit_transform xs).
Proof.
  intros Hall. destruct (all_present_dropna c xs Hall) as [Hlen Hc].
  unfold fit_transform. destruct (dropna xs) as [|v vs] eqn:Hd.
  - destruct xs; [constructor|discriminate].
  - destruct (Qmin_list_is_min v vs) as [(a & Ha & Hamin) _].
    destruct (Qmax_list_is_max v vs) as [(b & Hb & Hbmax) _].
    pose proof (Hc a Ha) as Hca. pose proof (Hc b Hb) as Hcb.
    set (mn := Qmin_list v vs) in *. set (mx := Qmax_list v vs) in *.
    assert (Hrange : (mx - mn == 0)%Q) by lra.
    unfold handle_zeros_in_scale.
    apply Qeq_bool_iff in Hrange. rewrite Hrange.
    clear Hd Hlen Hc Ha Hb. induction Hall as [|x xs (q & -> & Hq) _ IH]; cbn [map].
    + constructor.
    + constructor; [|exact IH]. eexists. split; [reflexivity|].
      rewrite Hq, <- Hamin, Hca. field.
Qed.

(** C8.  A constant column is normalized to zeros, with or without
    inversion, and the divisor of the scaling is never zero. *)
Theorem normalize_constant_column (df : DataFrame) (cols inv : list string)
    (col : string) (c : Q) :
  List.NoDup cols -> In col cols -> (0 < len df)%nat ->
  Forall (fun x => exists q, x = Some q /\ (q == c)%Q) (col_values col df) ->
  Forall (fun y => exists q, y = Some q /\ (q == 0)%Q)
         (col_values col (normalize_data df cols inv))
  /\ (forall range, ~ (handle_zeros_in_scale range == 0)%Q).
Proof.
  intros Hnd Hin _ Hall. split.
  - rewrite normalize_data_column by assumption. unfold scale_column.
    destruct (inb col inv).
    + apply (fit_transform_constant (-1 * c)).
      clear -Hall. induction Hall as [|x xs (q & -> & Hq) _ IH]; cbn [map]; constructor; auto.
      eexists. split; [reflexivity|]. rewrite Hq. reflexivity.
    + apply (fit_transform_constant c). exact Hall.
  - intros range. unfold handle_zeros_in_scale.
    destruct (Qeq_bool range 0) eqn:E; [discriminate|].
    intros H. apply Qeq_bool_iff in H. congruence.
Qed.

Lemma normalize_constant_column_witness :
  Forall (fun y => exists q, y = Some q /\ (q == 0)%Q)
         (col_values "x" (normalize_data Examples.constant_values ["x"] ["x"])).
Proof.
  refine (proj1 (normalize_constant_column
                   Examples.constant_values ["x"] ["x"] "x" (7 # 2) _ _ _ _)).
  - repeat constructor; cbn; intuition discriminate.
  - left. reflexivity.
  - cbn. lia.
  - vm_compute. repeat constructor; eexists; split; reflexivity.
Defined.

End NormalizerTheorems.

(** ** Double precision *)

Section Binary64Facts.

Import Binary64.
Local Open Scope Q_scope.




Lemma pow2_lt (a b : Z) : (a < b)%Z -> pow2 a < pow2 b.
Proof. intros H. apply Qpower_lt_compat_l; [exact H|reflexivity]. Qed.




(** *** Rounding to the nearest integer *)









(** *** The exponent *)








(** *** Rounding to a double *)






















Lemma exact_rounding : rounding exact.
Proof.
  constructor; unfold exact; intros; try assumption; reflexivity.
Qed.



End Binary64Facts.

(** ** Normalizer, as executed *)

Section FloatNormalizerFacts.

Import Normalizer FloatNormalizer Binary64 Series.

Variable rnd : Q -> Q.
Hypothesis R : rounding rnd.

#[local] Instance rnd_Proper : Proper (Qeq ==> Qeq) rnd.
Proof. intros x y H. apply (rnd_proper rnd R). exact H. Qed.

























End FloatNormalizerFacts.

Section FloatNormalizerTheorems.

Import Normalizer FloatNormalizer Binary64 Series.




(** C7 as stated fails: in double precision the scale of the column
    [1, 2, 3, 4, 5, 6] is the double next to 1/5, and the greatest
    normalized value is 1 + 2^-52, not 1. *)
Lemma normalized_max_not_one :
  non_constant (dropna (col_values "x" FloatExamples.six_values))
  /\ option_map (col_values "x")
       (normalize_data binary64 FloatExamples.six_values ["x"] [])
     = Some [Some 0;
             Some (3602879701896397 # 18014398509481984);
             Some (7205759403792795 # 18014398509481984);
             Some (1351079888211149 # 2251799813685248);
             Some (3602879701896397 # 4503599627370496);
             Some (4503599627370497 # 4503599627370496)]%Q
  /\ (1 < 4503599627370497 # 4503599627370496)%Q
  /\ image binary64 1 6 6 = (4503599627370497 # 4503599627370496)%Q.
Proof.
  split; [exists 1%Q, 2%Q; vm_compute; intuition discriminate|].
  split; [vm_compute; reflexivity|]. split; reflexivity.
Qed.

End FloatNormalizerTheorems.

(** ** Sorting *)

Section SortFacts.

Variable leb : Q -> Q -> bool.
Variable R : Q -> Q -> Prop.
Hypothesis leb_true : forall x y, leb x y = true -> R x y.
Hypothesis leb_false : forall x y, leb x y = false -> R y x.

Lemma insert_by_perm (x : Q) (l : list Q) :
  Permutation (x :: l) (insert_by leb x l).
Proof.
  induction l as [|y l IH]; cbn [insert_by]; [reflexivity|].
  destruct (leb x y); [reflexivity|].
  etransitivity; [apply perm_swap|]. apply perm_skip. exact IH.
Qed.

Lemma sort_by_perm (l : list Q) : Permutation l (sort_by leb l).
Proof.
  induction l as [|x l IH]; cbn; [constructor|].
  etransitivity; [apply perm_skip; exact IH|]. apply insert_by_perm.
Qed.

Lemma insert_by_hdrel (a x : Q) (l : list Q) :
  R a x -> HdRel R a l -> HdRel R a (insert_by leb x l).
Proof.
  intros Hax Hl. destruct l as [|y l]; cbn [insert_by]; [constructor; exact Hax|].
  destruct (leb x y); constructor; [exact Hax|].
  inversion Hl; assumption.
Qed.

Lemma insert_by_sorted (x : Q) (l : list Q) :
  Sorted R l -> Sorted R (insert_by leb x l).
Proof.
  induction 1 as [|y l Hs IH Hhd]; cbn [insert_by].
  - repeat constructor.
  - destruct (leb x y) eqn:E.
    + constructor; [constructor; assumption|].
      constructor. apply leb_true. exact E.
    + constructor; [exact IH|].
      apply insert_by_hdrel; [apply leb_false; exact E|exact Hhd].
Qed.

Lemma sort_by_sorted (l : list Q) : Sorted R (sort_by leb l).
Proof.
  induction l as [|x l IH]; cbn; [constructor|].
  apply insert_by_sorted. exact IH.
Qed.

End SortFacts.

Lemma sort_asc_sorted (l : list Q) : Sorted Qle (sort_asc l).
Proof.
  apply sort_by_sorted.
  - intros x y H. apply Qle_bool_iff. exact H.
  - intros x y H. apply Qlt_le_weak. apply Qnot_le_lt. intros Hle.
    apply Qle_bool_iff in Hle. congruence.
Qed.

Lemma sort_asc_perm (l : list Q) : Permutation l (sort_asc l).
Proof. apply sort_by_perm. Qed.

Lemma sort_desc_sorted (l : list Q) : StronglySorted (fun x y => (y <= x)%Q) (sort_desc l).
Proof.
  apply Sorted_StronglySorted.
  - intros x y z Hxy Hyz. eapply Qle_trans; eassumption.
  - apply sort_by_sorted with (R := fun x y => (y <= x)%Q).
    + intros x y H. apply Qle_bool_iff. exact H.
    + intros x y H. unfold Qge_bool in H. apply Qlt_le_weak. apply Qnot_le_lt.
      intros Hle. apply Qle_bool_iff in Hle. congruence.
Qed.

Lemma sort_desc_perm (l : list Q) : Permutation l (sort_desc l).
Proof. apply sort_by_perm. Qed.

(** ** ScoreEngine: ranking *)

Section RankFacts.

Import ScoreEngine.

Lemma filter_length_perm {A} (f : A -> bool) (l l' : list A) :
  Permutation l l' -> length (List.filter f l) = length (List.filter f l').
Proof.
  induction 1 as [|x l l' _ IH|x y l|l l' l'' _ IH1 _ IH2]; cbn.
  - reflexivity.
  - destruct (f x); cbn; lia.
  - destruct (f x), (f y); reflexivity.
  - lia.
Qed.

Lemma count_greater_sorted (scores : list Q) (v : Q) :
  count_greater (sort_desc scores) v = count_greater scores v.
Proof. symmetry. apply filter_length_perm, sort_desc_perm. Qed.

Lemma count_equal_sorted (scores : list Q) (v : Q) :
  count_equal (sort_desc scores) v = count_equal scores v.
Proof. symmetry. apply filter_length_perm, sort_desc_perm. Qed.

Lemma below_none_greater (l : list Q) (x v : Q) :
  Forall (fun y => (y <= x)%Q) l -> (x <= v)%Q -> count_greater l v = 0.
Proof.
  unfold count_greater. induction 1 as [|y l Hy _ IH]; intros Hxv; [reflexivity|].
  cbn [List.filter]. destruct (Qlt_bool v y) eqn:E.
  - apply Qlt_bool_iff in E. lra.
  - apply IH. exact Hxv.
Qed.

Lemma below_none_equal (l : list Q) (x v : Q) :
  Forall (fun y => (y <= x)%Q) l -> (x < v)%Q -> count_equal l v = 0.
Proof.
  unfold count_equal. induction 1 as [|y l Hy _ IH]; intros Hxv; [reflexivity|].
  cbn [List.filter]. destruct (Qeq_bool y v) eqn:E.
  - apply Qeq_bool_iff in E. lra.
  - apply IH. exact Hxv.
Qed.

(** In a descending list the tie group of [v] occupies the positions
    right after the strictly larger values. *)
Lemma tie_positions_sorted (v : Q) (l : list Q) :
  StronglySorted (fun x y => (y <= x)%Q) l ->
  forall k, tie_positions v l k = seq (k + count_greater l v) (count_equal l v).
Proof.
  induction 1 as [|x l Hs IH Hall]; intros k; [reflexivity|].
  cbn [tie_positions]. unfold count_greater, count_equal in *.
  cbn [List.filter]. rewrite IH.
  destruct (Qeq_bool x v) eqn:Eeq.
  - apply Qeq_bool_iff in Eeq.
    destruct (Qlt_bool v x) eqn:Elt; [apply Qlt_bool_iff in Elt; lra|].
    pose proof (below_none_greater l x v Hall) as H0.
    unfold count_greater in H0. rewrite H0 by lra.
    cbn [length seq]. rewrite !Nat.add_0_r. reflexivity.
  - destruct (Qlt_bool v x) eqn:Elt.
    + cbn [length]. rewrite Nat.add_succ_r. reflexivity.
    + apply Qlt_bool_false_iff in Elt.
      assert (Hlt : (x < v)%Q).
      { destruct (Qlt_le_dec x v) as [H|H]; [exact H|].
        exfalso. assert (Hxv : (x == v)%Q) by (apply Qle_antisym; assumption).
        apply Qeq_bool_iff in Hxv. congruence. }
      pose proof (below_none_greater l x v Hall) as H0.
      pose proof (below_none_equal l x v Hall Hlt) as H1.
      unfold count_greater in H0. unfold count_equal in H1.
      rewrite H0 by lra. rewrite H1. reflexivity.
Qed.

Lemma list_sum_seq (a n : nat) :
  2 * list_sum (seq a n) + n = n * (2 * a + n).
Proof.
  revert a. induction n as [|n IH]; intros a; [reflexivity|].
  specialize (IH (S a)). unfold list_sum in *. cbn [seq fold_right]. nia.
Qed.

Lemma tie_positions_respects (u v : Q) (l : list Q) :
  (u == v)%Q -> forall k, tie_positions u l k = tie_positions v l k.
Proof.
  intros Huv. induction l as [|x l IH]; intros k; [reflexivity|].
  cbn [tie_positions]. rewrite IH.
  assert (E : Qeq_bool x u = Qeq_bool x v).
  { destruct (Qeq_bool x u) eqn:E1, (Qeq_bool x v) eqn:E2; try reflexivity.
    - apply Qeq_bool_iff in E1. assert (H : (x == v)%Q) by lra.
      apply Qeq_bool_iff in H. congruence.
    - apply Qeq_bool_iff in E2. assert (H : (x == u)%Q) by lra.
      apply Qeq_bool_iff in H. congruence. }
  rewrite E. reflexivity.
Qed.

Lemma count_equal_pos (scores : list Q) (v : Q) :
  (exists s, In s scores /\ (s == v)%Q) -> 0 < count_equal scores v.
Proof.
  unfold count_equal. intros (s & Hs & Hsv).
  induction scores as [|x l IH]; [destruct Hs|]. cbn [List.filter].
  destruct Hs as [->|Hs].
  - apply Qeq_bool_iff in Hsv. rewrite Hsv. cbn. lia.
  - destruct (Qeq_bool x v); cbn; [lia|apply IH; exact Hs].
Qed.

(** Everything at or above a larger score is strictly above a smaller one. *)
Lemma count_greater_step (scores : list Q) (u v : Q) :
  (v < u)%Q ->
  count_greater scores u + count_equal scores u <= count_greater scores v.
Proof.
  intros Hlt. unfold count_greater, count_equal.
  induction scores as [|x l IH]; [reflexivity|]. cbn [List.filter].
  destruct (Qlt_bool u x) eqn:E1, (Qeq_bool x u) eqn:E2, (Qlt_bool v x) eqn:E3;
    cbn [length]; try lia;
    try apply Qlt_bool_iff in E1; try apply Qeq_bool_iff in E2;
    try apply Qlt_bool_false_iff in E3; lra.
Qed.

Lemma rank_of_value (scores : list Q) (v : Q) :
  (exists s, In s scores /\ (s == v)%Q) ->
  (rank_of scores v ==
   inject_Z (Z.of_nat (count_greater scores v))
   + (inject_Z (Z.of_nat (count_equal scores v)) + 1) / 2)%Q.
Proof.
  intros Hin. pose proof (count_equal_pos scores v Hin) as Hpos.
  unfold rank_of. rewrite tie_positions_sorted by apply sort_desc_sorted.
  rewrite count_greater_sorted, count_equal_sorted.
  set (g := count_greater scores v). set (e := count_equal scores v) in *.
  unfold Qmean_nat. rewrite length_seq.
  pose proof (list_sum_seq (1 + g) e) as Hsum.
  set (S := list_sum (seq (1 + g) e)) in *.
  assert (HZ : (2 * Z.of_nat S + Z.of_nat e
                = Z.of_nat e * (2 * (1 + Z.of_nat g) + Z.of_nat e))%Z) by lia.
  assert (HQ : (2 * inject_Z (Z.of_nat S) + inject_Z (Z.of_nat e)
                == inject_Z (Z.of_nat e)
                   * (2 * (1 + inject_Z (Z.of_nat g)) + inject_Z (Z.of_nat e)))%Q).
  { change 2%Q with (inject_Z 2). change 1%Q with (inject_Z 1).
    rewrite <- inject_Z_mult, <- !inject_Z_plus, <- inject_Z_mult, <- inject_Z_plus.
    rewrite <- inject_Z_mult. rewrite HZ. reflexivity. }
  assert (He : (0 < inject_Z (Z.of_nat e))%Q).
  { change 0%Q with (inject_Z 0). rewrite <- Zlt_Qlt. lia. }
  set (s := inject_Z (Z.of_nat S)) in *.
  set (e' := inject_Z (Z.of_nat e)) in *.
  set (g' := inject_Z (Z.of_nat g)) in *.
  field_simplify_eq; [|lra]. nra.
Qed.

End RankFacts.

Section RankTheorems.

Import ScoreEngine.

Lemma inject_nat_le (a b : nat) :
  a <= b -> (inject_Z (Z.of_nat a) <= inject_Z (Z.of_nat b))%Q.
Proof. intros H. rewrite <- Zle_Qle. lia. Qed.

(** C3, as the code has it.  Ranks follow the descending order of the
    scores; a score receives the mean of the positions its tie group
    occupies (the positions after the strictly larger scores), so tied
    scores receive equal ranks, a larger score a strictly smaller rank,
    and a score that is not tied the rank equal to its position. *)
Theorem rank_average_of_tie_group (scores : list Q) (u v : Q) :
  In u scores -> In v scores ->
  tie_positions v (sort_desc scores) 1
  = seq (1 + count_greater scores v) (count_equal scores v)
  /\ (rank_of scores v ==
      inject_Z (Z.of_nat (count_greater scores v))
      + (inject_Z (Z.of_nat (count_equal scores v)) + 1) / 2)%Q
  /\ ((u == v)%Q -> rank_of scores u = rank_of scores v)
  /\ ((v < u)%Q -> (rank_of scores u < rank_of scores v)%Q)
  /\ (count_equal scores v = 1 ->
      (rank_of scores v == competition_rank_of scores v)%Q).
Proof.
  intros Hu Hv.
  assert (Hu' : exists s, In s scores /\ (s == u)%Q) by (exists u; split; [exact Hu|reflexivity]).
  assert (Hv' : exists s, In s scores /\ (s == v)%Q) by (exists v; split; [exact Hv|reflexivity]).
  pose proof (rank_of_value scores v Hv') as Hrv.
  pose proof (rank_of_value scores u Hu') as Hru.
  split; [|split; [exact Hrv|split; [|split]]].
  - rewrite tie_positions_sorted by apply sort_desc_sorted.
    rewrite count_greater_sorted, count_equal_sorted. reflexivity.
  - intros Huv. unfold rank_of. rewrite (tie_positions_respects u v) by exact Huv.
    reflexivity.
  - intros Hlt. rewrite Hru, Hrv.
    pose proof (inject_nat_le _ _ (count_greater_step scores u v Hlt)) as Hstep.
    pose proof (inject_nat_le _ _ (count_equal_pos scores v Hv')) as Hev.
    pose proof (inject_nat_le _ _ (count_equal_pos scores u Hu')) as Heu.
    rewrite Nat2Z.inj_add, inject_Z_plus in Hstep.
    change (inject_Z (Z.of_nat 1)) with 1%Q in Hev, Heu.
    revert Hstep Hev Heu.
    generalize (inject_Z (Z.of_nat (count_greater scores u))) as gu.
    generalize (inject_Z (Z.of_nat (count_equal scores u))) as eu.
    generalize (inject_Z (Z.of_nat (count_greater scores v))) as gv.
    generalize (inject_Z (Z.of_nat (count_equal scores v))) as ev.
    intros ev gv eu gu Hstep Hev Heu.
    unfold Qdiv. change (/ 2)%Q with (1 # 2)%Q. lra.
  - intros H1. rewrite Hrv, H1. unfold competition_rank_of.
    rewrite (Nat2Z.inj_succ (count_greater scores v)). unfold Z.succ.
    rewrite inject_Z_plus.
    change (inject_Z (Z.of_nat 1)) with 1%Q. change (inject_Z 1) with 1%Q. field.
Qed.

Lemma rank_average_of_tie_group_witness :
  (rank_of [1 # 2; 1 # 2; 1 # 5] (1 # 2) < rank_of [1 # 2; 1 # 2; 1 # 5] (1 # 5))%Q.
Proof.
  refine (proj1 (proj2 (proj2 (proj2
    (rank_average_of_tie_group [1 # 2; 1 # 2; 1 # 5] (1 # 2) (1 # 5) _ _)))) _).
  - left. reflexivity.
  - right. right. left. reflexivity.
  - reflexivity.
Defined.

(** C3 as stated fails: two scores tied at the top both receive 3/2, not
    the lower position 1 of standard competition ranking. *)
Lemma rank_ties_not_competition :
  map Qred (rank [1 # 2; 1 # 2; 1 # 5]) = [3 # 2; 3 # 2; 3]%Q
  /\ map (competition_rank_of [1 # 2; 1 # 2; 1 # 5]) [1 # 2; 1 # 2; 1 # 5]
     = [1; 1; 3]%Q
  /\ ~ (rank_of [1 # 2; 1 # 2; 1 # 5] (1 # 2)
        == competition_rank_of [1 # 2; 1 # 2; 1 # 5] (1 # 2))%Q.
Proof.
  split; [vm_compute; reflexivity|]. split; [vm_compute; reflexivity|].
  vm_compute. discriminate.
Qed.

End RankTheorems.

(** ** Selector *)

Section SelectorFacts.

Import Selector.

Lemma assign_rows_In (col : string) (vs : list cell) (rs : list (gmap string cell))
    (r' : gmap string cell) :
  In r' (assign_rows col vs rs) ->
  exists r, In r rs /\ (r' = r \/ exists v, r' = <[col := v]> r).
Proof.
  revert vs. induction rs as [|r rs IH]; intros vs Hin; [destruct vs; destruct Hin|].
  destruct vs as [|v vs].
  - exists r'. split; [exact Hin|left; reflexivity].
  - cbn in Hin. destruct Hin as [<-|Hin].
    + exists r. split; [left; reflexivity|right; eauto].
    + destruct (IH vs Hin) as (r0 & Hr0 & Hor). exists r0. split; [right; exact Hr0|exact Hor].
Qed.

Lemma existsb_is_nan_false (a : list num) :
  existsb is_nan a = false -> a = map Some (dropna a).
Proof.
  induction a as [|[q|] a IH]; cbn; intros H; [reflexivity| |discriminate].
  f_equal. apply IH. exact H.
Qed.

Lemma floor_nonneg (x : Q) : (0 <= x)%Q -> (0 <= Qfloor x)%Z.
Proof.
  intros H. change 0%Z with (Qfloor 0). apply Qfloor_resp_le. exact H.
Qed.

(** The cutoff of a non-empty series without NaN is the interpolated
    percentile of its ascending arrangement. *)
Lemma percentile_interpolated (a : list num) (p : Z) :
  (1 <= p <= 100)%Z -> a <> [] -> existsb is_nan a = false ->
  exists c s, percentile a p = Some c
    /\ Permutation (dropna a) s /\ Sorted Qle s /\ interpolated s p c.
Proof.
  intros [Hp1 Hp2] Hne Hnan. unfold percentile. rewrite Hnan.
  pose proof (sort_asc_perm (dropna a)) as Hperm.
  pose proof (sort_asc_sorted (dropna a)) as Hsorted.
  destruct (sort_asc (dropna a)) as [|x s'] eqn:Hs.
  { apply Permutation_length in Hperm. cbn in Hperm.
    rewrite (existsb_is_nan_false a Hnan) in Hne.
    destruct (dropna a); [contradiction|discriminate]. }
  set (s := x :: s') in *. set (n := length s).
  set (virtual := (inject_Z (Z.of_nat (n - 1)) * (inject_Z p / 100))%Q).
  assert (Hpq : (0 <= inject_Z p / 100)%Q /\ (inject_Z p / 100 <= 1)%Q).
  { split.
    - apply Qle_shift_div_l; [reflexivity|]. rewrite Qmult_0_l.
      change 0%Q with (inject_Z 0). rewrite <- Zle_Qle. lia.
    - apply Qle_shift_div_r; [reflexivity|]. rewrite Qmult_1_l.
      change 100%Q with (inject_Z 100). rewrite <- Zle_Qle. lia. }
  assert (Hn1 : (0 <= inject_Z (Z.of_nat (n - 1)))%Q).
  { change 0%Q with (inject_Z 0). rewrite <- Zle_Qle. lia. }
  assert (Hv0 : (0 <= virtual)%Q) by (unfold virtual; nra).
  assert (Hv1 : (virtual <= inject_Z (Z.of_nat (n - 1)))%Q) by (unfold virtual; nra).
  pose proof (floor_nonneg virtual Hv0) as Hf0.
  pose proof (Qfloor_le virtual) as Hfl.
  pose proof (Qlt_floor virtual) as Hfu.
  assert (Hf1 : (Qfloor virtual <= Z.of_nat (n - 1))%Z).
  { rewrite <- (Qfloor_Z (Z.of_nat (n - 1))). apply Qfloor_resp_le. exact Hv1. }
  set (f := Qfloor virtual) in *.
  assert (Hj : Z.to_nat f < length s) by (fold n; cbn in n; unfold n in *; cbn [length] in *; lia).
  eexists. exists s. split; [reflexivity|]. split; [exact Hperm|]. split; [exact Hsorted|].
  exists (Z.to_nat f), (virtual - inject_Z f)%Q.
  rewrite inject_Z_plus in Hfu. change (inject_Z 1) with 1%Q in Hfu.
  split; [lra|]. split; [lra|]. split; [exact Hj|]. split.
  - rewrite Z2Nat.id by exact Hf0. fold n. fold virtual. ring.
  - fold n. rewrite (nth_indep s x 0%Q) by exact Hj.
    rewrite (nth_indep s x 0%Q (n := Nat.min (S (Z.to_nat f)) (n - 1))).
    + reflexivity.
    + unfold n. cbn [length]. lia.
Qed.

End SelectorFacts.

Section SelectorTheorems.

Import Selector.

Lemma assign_rows_map (col : string) (f : gmap string cell -> cell)
    (rs : list (gmap string cell)) :
  assign_rows col (map f rs) rs = map (fun r => <[col := f r]> r) rs.
Proof.
  induction rs as [|r rs IH]; cbn; [reflexivity|]. f_equal. exact IH.
Qed.

Lemma select_stocks_rows (df_ranked : DataFrame) (p : Z) :
  rows (select_stocks df_ranked p)
  = map with_category
        (List.filter (above (percentile_value df_ranked p)) (rows df_ranked)).
Proof.
  unfold select_stocks, assign, select_rows, col_values. cbn [rows].
  rewrite map_map. apply assign_rows_map.
Qed.


Lemma all_present_no_nan (rs : list (gmap string cell)) :
  Forall (fun r => exists q, at_num "Composite Score" r = Some q) rs ->
  existsb is_nan (map (at_num "Composite Score") rs) = false.
Proof.
  induction 1 as [|r rs (q & Hq) _ IH]; [reflexivity|].
  cbn [map existsb]. rewrite Hq. exact IH.
Qed.

End SelectorTheorems.

(** ** Selector, as executed *)

Section FloatSelectorFacts.

Import Selector FloatSelector Binary64.






End FloatSelectorFacts.

Section FloatSelectorTheorems.

Import Selector FloatSelector Binary64.



(** C5 as stated fails: for the 51 scores 0/64, ..., 50/64 the
    interpolated 58th percentile is the score 29/64, above which there
    are 21 scores.  In double precision the virtual index 50 * 0.58 is
    just below 29 and the computed cutoff just below 29/64, so that 22
    rows are selected, and the least selected score is 29/64, the
    percentile itself. *)
Lemma row_at_percentile_selected :
  option_map Qred (Selector.percentile_value FloatExamples.graded_table 58)
  = Some (29 # 64)%Q
  /\ mask_sum (above (Some (29 # 64)%Q)) (rows FloatExamples.graded_table) = 21
  /\ percentile_value binary64 FloatExamples.graded_table 58
     = Some (8162774324609023 # 18014398509481984)%Q
  /\ (8162774324609023 # 18014398509481984 < 29 # 64)%Q
  /\ len (select_stocks binary64 FloatExamples.graded_table 58) = 22
  /\ hd_error (sort_asc (dropna (col_values "Composite Score"
                                  (select_stocks binary64 FloatExamples.graded_table 58))))
     = Some (29 # 64)%Q.
Proof.
  split; [vm_compute; reflexivity|].
  split; [vm_compute; reflexivity|].
  split; [vm_compute; reflexivity|].
  split; [reflexivity|].
  split; vm_compute; reflexivity.
Qed.

End FloatSelectorTheorems.

Section BucketTheorems.

Import Selector.

Lemma with_category_bucketed (r : gmap string cell) : bucketed (with_category r).
Proof.
  unfold bucketed.
  assert (Hcap : at_num "Market Capitalization" (with_category r)
                 = at_num "Market Capitalization" r).
  { unfold with_category, at_num. rewrite at_col_insert_other; [reflexivity|discriminate]. }
  assert (Hcat : at_col "Market Cap Category" (with_category r)
                 = Str (market_cap_category (at_num "Market Capitalization" r))).
  { unfold with_category, at_col. rewrite lookup_insert_eq. reflexivity. }
  rewrite Hcap, Hcat. destruct (at_num "Market Capitalization" r) as [v|]; [|reflexivity].
  cbn [market_cap_category].
  destruct (Qle_bool v small_cap_limit) eqn:E1.
  - left. split; [apply Qle_bool_iff; exact E1|reflexivity].
  - assert (H1 : (small_cap_limit < v)%Q).
    { apply Qnot_le_lt. intros H. apply Qle_bool_iff in H. congruence. }
    destruct (Qle_bool v mid_cap_limit) eqn:E2.
    + right. left. split; [exact H1|]. split; [apply Qle_bool_iff; exact E2|reflexivity].
    + right. right. split; [|reflexivity].
      apply Qnot_le_lt. intros H. apply Qle_bool_iff in H. congruence.
Qed.

(** C6, as the code has it.  Every selected asset whose market
    capitalization is present is assigned exactly one of Small, Mid and
    Large by the thresholds (at most 29182.71: Small; above it and at
    most 89123.03: Mid; above that: Large); an asset whose market
    capitalization is missing is assigned none of them and carries the
    text "nan". *)
Theorem bucket_partition_of_present (df_ranked : DataFrame) (p : Z) :
  Forall bucketed (rows (select_stocks df_ranked p)).
Proof.
  rewrite select_stocks_rows. apply List.Forall_forall. intros r' Hr'.
  apply in_map_iff in Hr'. destruct Hr' as (r & <- & _).
  apply with_category_bucketed.
Qed.

(** C6 as stated fails: the market capitalization is exempt from
    cleaning, and a selected asset without one is in no bucket. *)
Lemma missing_market_cap_no_bucket :
  col_cells "Market Cap Category" (select_stocks Examples.ranked_table 1)
  = [Str "Large-Cap"; Str "Mid-Cap"; Str "nan"]
  /\ ~ In (Str "nan") [Str "Small-Cap"; Str "Mid-Cap"; Str "Large-Cap"].
Proof.
  split; [vm_compute; reflexivity|].
  cbn. intuition discriminate.
Qed.

End BucketTheorems.

(** ** The pipeline over the session state *)

Section PipelineFacts.

Import Pipeline.













End PipelineFacts.

Section PipelineTheorems.

Import Pipeline ReturnsAnalyzer.








End PipelineTheorems.

Section AnnualizationTheorems.

Import Pipeline ReturnsAnalyzer Statistics Matrix.

Lemma entry_covariance (returns_data : ReturnsFrame) (i j : nat) :
  entry (covariance_matrix_of returns_data) i j
  = match nth_error (assets returns_data) i, nth_error (assets returns_data) j with
    | Some a, Some b =>
        num_mul (cov (snd a) (snd b))
                (Some (inject_Z (Z.of_nat (trading_days_of returns_data))))
    | _, _ => None
    end.
Proof.
  unfold entry, covariance_matrix_of, scale_matrix, cov_matrix.
  rewrite !nth_error_map.
  destruct (nth_error (assets returns_data) i) as [a|]; cbn [option_map]; [|reflexivity].
  rewrite !nth_error_map.
  destruct (nth_error (assets returns_data) j) as [b|]; reflexivity.
Qed.











End AnnualizationTheorems.

(** ** PortfolioOptimizer: constraints *)

Section ConstraintFacts.

Import Optimizer.

Lemma industry_step_scope sel cols st name :
  fst (industry_step sel cols st name)
  = mkScope (Some name) (cap_type (fst st)) (industry_limits (fst st))
            (cap_limits (fst st)).
Proof.
  destruct st as [sc cs]. unfold industry_step.
  destruct (group_indices "Industry" name sel cols); reflexivity.
Qed.

Lemma cap_step_scope sel cols st name :
  fst (cap_step sel cols st name)
  = mkScope (industry (fst st)) (Some name) (industry_limits (fst st))
            (cap_limits (fst st)).
Proof.
  destruct st as [sc cs]. unfold cap_step.
  destruct (group_indices "Market Cap Category" name sel cols); reflexivity.
Qed.

Lemma last_nonempty {A} (l : list A) (x d d' : A) :
  List.last (x :: l) d = List.last (x :: l) d'.
Proof.
  revert x. induction l as [|y l IH]; intros x; [reflexivity|].
  change (List.last (y :: l) d = List.last (y :: l) d'). apply IH.
Qed.

Lemma industry_loop_scope sel cols names : forall st,
  fst (fold_left (industry_step sel cols) names st)
  = mkScope (List.last (map Some names) (industry (fst st))) (cap_type (fst st))
            (industry_limits (fst st)) (cap_limits (fst st)).
Proof.
  induction names as [|name names IH]; intros st.
  - destruct st as [[? ? ? ?] ?]. reflexivity.
  - cbn [fold_left]. rewrite IH, industry_step_scope.
    cbn [industry cap_type industry_limits cap_limits]. f_equal.
    destruct names as [|name' names]; [reflexivity|].
    cbn [map].
    change (List.last (Some name' :: map Some names) (Some name)
            = List.last (Some name' :: map Some names) (industry (fst st))).
    apply last_nonempty.
Qed.

Lemma industry_loop_constraints sel cols names : forall st,
  snd (fold_left (industry_step sel cols) names st)
  = (snd st ++ group_constraints IndustryCap "Industry" names sel cols)%list.
Proof.
  induction names as [|name names IH]; intros [sc cs].
  - cbn. rewrite app_nil_r. reflexivity.
  - cbn [fold_left]. rewrite IH. unfold industry_step, group_constraints.
    cbn [flat_map].
    destruct (group_indices "Industry" name sel cols); cbn [snd].
    + reflexivity.
    + rewrite <- app_assoc. reflexivity.
Qed.

Lemma cap_loop_constraints sel cols names : forall st,
  snd (fold_left (cap_step sel cols) names st)
  = (snd st ++ group_constraints BucketCap "Market Cap Category" names sel cols)%list.
Proof.
  induction names as [|name names IH]; intros [sc cs].
  - cbn. rewrite app_nil_r. reflexivity.
  - cbn [fold_left]. rewrite IH. unfold cap_step, group_constraints.
    cbn [flat_map].
    destruct (group_indices "Market Cap Category" name sel cols); cbn [snd].
    + reflexivity.
    + rewrite <- app_assoc. reflexivity.
Qed.

Lemma build_constraints_scope sel cols sc :
  fst (build_constraints sel cols sc)
  = mkScope (List.last (map Some (industries_of sel)) (industry sc))
            (Some "Small-Cap") (industry_limits sc) (cap_limits sc).
Proof.
  unfold build_constraints, cap_types. cbn [fold_left].
  rewrite !cap_step_scope, industry_loop_scope. reflexivity.
Qed.

(** C1, what the code does.  Each group constraint holds the index list
    of its own group, but when the solver calls the constraint functions
    the loop variables hold the last industry and the last bucket
    ("Small-Cap"): every industry constraint is evaluated with the last
    industry's cap, every bucket constraint with the Small-Cap cap.  With
    the industries Pharma (cap 0.8) and IT (cap 0.4), the buckets
    Large-Cap (cap 0.6667) and Mid-Cap (cap 0.3333), no Small-Cap asset
    (cap 0), the columns ALPHA, BETA, GAMMA and the weights
    (0.3, 0.3333, 0.3667), the Pharma constraint over the columns 1 and 2
    gives 0.4 - 0.7 = -0.3 instead of 0.8 - 0.7 = 0.1, and the Mid-Cap
    constraint over column 1 gives 0 - 0.3333 instead of
    0.3333 - 0.3333 = 0. *)
Theorem group_constraints_read_last_group :
  (forall sel cols sc,
      snd (build_constraints sel cols sc)
      = ([mkConstraint Eq_ SumToOne]
         ++ group_constraints IndustryCap "Industry" (industries_of sel) sel cols
         ++ group_constraints BucketCap "Market Cap Category" cap_types sel cols)%list)
  /\ (forall sel cols sc idx x,
        call (fst (build_constraints sel cols sc)) (BucketCap idx) x
        = option_map (fun limit => (limit - sum_at x idx)%Q)
                     (cap_limits sc !! "Small-Cap"))
  /\ (forall sel cols sc idx x,
        call (fst (build_constraints sel cols sc)) (IndustryCap idx) x
        = match List.last (map Some (industries_of sel)) (industry sc) with
          | Some last_industry =>
              option_map (fun limit => (limit - sum_at x idx)%Q)
                         (industry_limits sc !! last_industry)
          | None => None
          end)
  /\ industries_of Examples.selected_frame = ["Pharma"; "IT"]
  /\ map fun_ (snd (build_constraints Examples.selected_frame
                      Examples.returns_columns Examples.scope0))
     = [SumToOne; IndustryCap [1; 2]; IndustryCap [0];
        BucketCap [0; 2]; BucketCap [1]]
  /\ option_map Qred
       (constraint_value Examples.selected_frame Examples.returns_columns
          Examples.scope0 1 Examples.trial_weights)
     = Some (-3 # 10)%Q
  /\ Qred ((8 # 10) - sum_at Examples.trial_weights [1; 2]) = (1 # 10)%Q
  /\ option_map Qred
       (constraint_value Examples.selected_frame Examples.returns_columns
          Examples.scope0 4 Examples.trial_weights)
     = Some (-3333 # 10000)%Q
  /\ Qred ((3333 # 10000) - sum_at Examples.trial_weights [1]) = 0%Q.
Proof.
  split; [|split; [|split]].
  - intros sel cols sc. unfold build_constraints.
    rewrite cap_loop_constraints, industry_loop_constraints. cbn [snd].
    rewrite <- app_assoc. reflexivity.
  - intros sel cols sc idx x. rewrite build_constraints_scope.
    cbn [call cap_type cap_limits].
    destruct (cap_limits sc !! "Small-Cap"); reflexivity.
  - intros sel cols sc idx x. rewrite build_constraints_scope.
    cbn [call industry industry_limits].
    destruct (List.last (map Some (industries_of sel)) (industry sc)) as [name|];
      [|reflexivity].
    destruct (industry_limits sc !! name); reflexivity.
  - repeat split; vm_compute; reflexivity.
Qed.

End ConstraintFacts.

(** ** PortfolioOptimizer: post-processing *)

Section PostProcessFacts.

Import PostProcess.

Lemma argmax_from_lt (l : list Q) : forall i best_i best,
  best_i < i -> argmax_from i best_i best l < i + length l.
Proof.
  induction l as [|y l IH]; intros i best_i best Hlt; cbn [argmax_from length].
  - lia.
  - destruct (Qlt_bool best y).
    + specialize (IH (S i) i y). lia.
    + specialize (IH (S i) best_i best). lia.
Qed.

Lemma argmax_lt (y : Q) (l : list Q) : argmax (y :: l) < length (y :: l).
Proof.
  unfold argmax. pose proof (argmax_from_lt l 1 0 y). cbn [length]. lia.
Qed.

Lemma Qsum_insert (l : list Q) : forall i v,
  i < length l ->
  (Qsum (<[i := v]> l) == Qsum l - nth i l 0 + v)%Q.
Proof.
  induction l as [|x l IH]; intros i v Hi; [cbn in Hi; lia|].
  destruct i as [|i]; cbn [Qsum nth].
  - change (<[0 := v]> (x :: l)) with (v :: l). cbn [Qsum]. ring.
  - change (<[S i := v]> (x :: l)) with (x :: <[i := v]> l). cbn [Qsum].
    rewrite IH by (cbn in Hi; lia). ring.
Qed.

(** Before the filter, the adjusted percentages of a non-empty solution
    add up to 100. *)
Lemma adjusted_sum (y : Q) (l : list Q) : (Qsum (adjust (y :: l)) == 100)%Q.
Proof.
  unfold adjust. rewrite Qsum_insert by apply argmax_lt. ring.
Qed.

Lemma weights_pct_sum (y : Q) (x : list Q) : (Qsum (weights_pct (y :: x)) == 100)%Q.
Proof.
  unfold weights_pct, rounded_pct, optimal_weights. cbn [map]. apply adjusted_sum.
Qed.

(** C2, what the code does.  The adjusted percentages add up to 100, but
    the rows of weight at most 0.01 are dropped after the adjustment:
    for the solution (0.9999, 0.0001) the percentages are 99.99 and 0.01,
    the second row is dropped, and the remaining per-asset row sums to
    99.99 above a Total row of 100. *)
Theorem dropped_rows_break_total :
  (forall y x, (Qsum (weights_pct (y :: x)) == 100)%Q)
  /\ map Qred (weights_pct Examples.solved_weights) = [9999 # 100; 1 # 100]%Q
  /\ map Ticker (portfolio_results ["ALPHA"; "BETA"] Examples.solved_weights)
     = ["ALPHA"; "Total"]
  /\ Qred (weight_sum (asset_rows ["ALPHA"; "BETA"] Examples.solved_weights))
     = (9999 # 100)%Q
  /\ ~ (weight_sum (asset_rows ["ALPHA"; "BETA"] Examples.solved_weights) == 100)%Q.
Proof.
  split; [exact weights_pct_sum|].
  repeat split; try (vm_compute; reflexivity).
  vm_compute. discriminate.
Qed.

End PostProcessFacts.

(** * Further properties of the stages *)

(** ** Cleaner: the cleaned table *)

Section CleanerMore.

Import Cleaner.

Lemma filter_all_true {A} (f : A -> bool) (l : list A) :
  (forall x, In x l -> f x = true) -> List.filter f l = l.
Proof.
  induction l as [|x l IH]; intros H; [reflexivity|]. cbn.
  rewrite (H x (or_introl eq_refl)). f_equal. apply IH.
  intros y Hy. apply H. right. exact Hy.
Qed.

Lemma filter_all_false {A} (f : A -> bool) (l : list A) :
  (forall x, In x l -> f x = false) -> List.filter f l = [].
Proof.
  induction l as [|x l IH]; intros H; [reflexivity|]. cbn.
  rewrite (H x (or_introl eq_refl)). apply IH.
  intros y Hy. apply H. right. exact Hy.
Qed.

Lemma clean_loop_columns (cols : list string) : forall cur removed cur' removed',
  fold_left clean_step cols (cur, removed) = (cur', removed') ->
  columns cur' = columns cur.
Proof.
  induction cols as [|col cols IH]; intros cur removed cur' removed' Hfold.
  - cbn in Hfold. inversion Hfold. reflexivity.
  - cbn [fold_left] in Hfold. unfold clean_step in Hfold at 2.
    destruct (is_numeric_dtype cur col).
    + apply IH in Hfold. exact Hfold.
    + apply IH in Hfold. exact Hfold.
Qed.

Lemma clean_data_rows (df : DataFrame) :
  columns (fst (clean_data df)) = columns df
  /\ rows (fst (clean_data df)) = List.filter (valid_row df) (rows df).
Proof.
  unfold clean_data.
  destruct (fold_left clean_step (columns_to_clean df) (df, ∅)) as [cur removed] eqn:Hfold.
  cbn [fst]. split.
  - eapply clean_loop_columns. exact Hfold.
  - unfold valid_row. eapply clean_loop_rows; [reflexivity|exact Hfold].
Qed.

(** X1.  In the cleaned table no checked numeric column holds a negative
    or a missing value, the rows kept are in their former order, and a
    row without such a value in a checked numeric column is kept: the
    exempt columns (name, codes, industry, market capitalization) never
    cause a removal. *)
Theorem cleaned_table_is_valid (df : DataFrame) :
  Forall (fun r =>
            Forall (fun col =>
                      is_numeric_dtype df col = true ->
                      lt_zero (at_col col r) = false
                      /\ isnull (at_col col r) = false)
                   (columns_to_clean df))
         (rows (fst (clean_data df)))
  /\ (exists keep_mask, rows (fst (clean_data df)) = List.filter keep_mask (rows df))
  /\ Forall (fun r =>
              Forall (fun col =>
                        is_numeric_dtype df col = true ->
                        lt_zero (at_col col r) = false
                        /\ isnull (at_col col r) = false)
                     (columns_to_clean df)
              -> In r (rows (fst (clean_data df))))
           (rows df)
  /\ Forall (fun col => preserved col = false) (columns_to_clean df).
Proof.
  destruct (clean_data_rows df) as [_ Hrows].
  assert (Hvalid : forall r,
    valid_row df r = true <->
    Forall (fun col => is_numeric_dtype df col = true ->
                       lt_zero (at_col col r) = false /\ isnull (at_col col r) = false)
           (columns_to_clean df)).
  { intros r. unfold valid_row, valid_in. rewrite forallb_forall, List.Forall_forall.
    split; intros H col Hcol.
    - intros Hnum. specialize (H col Hcol). rewrite Hnum in H.
      unfold keep, notnull in H. apply andb_true_iff in H. destruct H as [H1 H2].
      rewrite negb_true_iff in H1, H2. split; assumption.
    - destruct (is_numeric_dtype df col) eqn:E; [|reflexivity].
      destruct (H col Hcol E) as [H1 H2].
      unfold keep, notnull. rewrite H1, H2. reflexivity. }
  split; [|split; [|split]].
  - rewrite Hrows. apply List.Forall_forall. intros r Hr.
    apply filter_In in Hr. apply Hvalid. apply Hr.
  - exists (valid_row df). exact Hrows.
  - apply List.Forall_forall. intros r Hr Hok. rewrite Hrows.
    apply filter_In. split; [exact Hr|]. apply Hvalid. exact Hok.
  - apply List.Forall_forall. intros col Hcol. unfold columns_to_clean in Hcol.
    apply filter_In in Hcol. destruct Hcol as [_ H].
    apply negb_true_iff in H. exact H.
Qed.

Lemma mask_sum_zero (m : gmap string cell -> bool) (rs : list (gmap string cell)) :
  (forall r, In r rs -> m r = false) -> mask_sum m rs = 0.
Proof.
  intros H. unfold mask_sum. rewrite filter_all_false by exact H. reflexivity.
Qed.

(** On rows that are all valid the loop removes nothing and records
    nothing. *)
Lemma clean_loop_valid (df : DataFrame) (cols : list string) :
  forall cur removed,
    columns cur = columns df ->
    (forall r, In r (rows cur) -> valid_in df cols r = true) ->
    fold_left clean_step cols (cur, removed) = (cur, removed).
Proof.
  induction cols as [|col cols IH]; intros cur removed Hcols Hall; [reflexivity|].
  cbn [fold_left].
  assert (Hnum : is_numeric_dtype cur col = is_numeric_dtype df col).
  { unfold is_numeric_dtype. rewrite Hcols. reflexivity. }
  assert (Hrest : forall r, In r (rows cur) -> valid_in df cols r = true).
  { intros r Hr. specialize (Hall r Hr). cbn [valid_in forallb] in Hall.
    apply andb_true_iff in Hall. apply Hall. }
  unfold clean_step at 2. rewrite Hnum.
  destruct (is_numeric_dtype df col) eqn:E; [|apply IH; assumption].
  assert (Hkeep : forall r, In r (rows cur) -> keep col r = true).
  { intros r Hr. specialize (Hall r Hr). cbn [valid_in forallb] in Hall.
    rewrite E in Hall. apply andb_true_iff in Hall. apply Hall. }
  rewrite !mask_sum_zero.
  - cbn [Nat.ltb Nat.leb]. unfold select_rows. rewrite filter_all_true by exact Hkeep.
    destruct cur as [cs rs]. cbn [columns rows] in *. apply IH; assumption.
  - intros r Hr. specialize (Hkeep r Hr). unfold keep in Hkeep.
    apply andb_true_iff in Hkeep. destruct Hkeep as [H _].
    apply negb_true_iff in H. exact H.
  - intros r Hr. specialize (Hkeep r Hr). unfold keep, notnull in Hkeep.
    apply andb_true_iff in Hkeep. destruct Hkeep as [_ H].
    apply negb_true_iff in H. exact H.
Qed.

(** X2.  Cleaning is idempotent: cleaning a cleaned table returns the
    same table, with no removal reason and nothing removed. *)
Theorem clean_data_idempotent (df : DataFrame) :
  let df_cleaned := fst (clean_data df) in
  fst (clean_data df_cleaned) = df_cleaned
  /\ removed_rows (snd (clean_data df_cleaned)) = ∅
  /\ total_removed (snd (clean_data df_cleaned)) = 0
  /\ final_rows (snd (clean_data df_cleaned)) = final_rows (snd (clean_data df)).
Proof.
  intros df_cleaned.
  destruct (clean_data_rows df) as [Hcols Hrows]. fold df_cleaned in Hcols, Hrows.
  assert (Hctc : columns_to_clean df_cleaned = columns_to_clean df).
  { unfold columns_to_clean, labels. rewrite Hcols. reflexivity. }
  assert (Hfold : fold_left clean_step (columns_to_clean df_cleaned) (df_cleaned, ∅)
                  = (df_cleaned, ∅)).
  { apply (clean_loop_valid df); [exact Hcols|].
    intros r Hr. rewrite Hrows in Hr. apply filter_In in Hr.
    rewrite Hctc. apply Hr. }
  assert (Hfinal : final_rows (snd (clean_data df)) = len df_cleaned).
  { unfold df_cleaned, clean_data.
    destruct (fold_left clean_step (columns_to_clean df) (df, ∅)). reflexivity. }
  unfold clean_data at 1 2 3 4. rewrite Hfold.
  cbn [fst snd removed_rows total_removed final_rows].
  repeat split; [lia|symmetry; exact Hfinal].
Qed.

End CleanerMore.

Section ImportSummary.

Import Cleaner DataImport.

Lemma mask_sum_le (m : gmap string cell -> bool) (rs : list (gmap string cell)) :
  mask_sum m rs <= length rs.
Proof.
  unfold mask_sum. induction rs as [|r rs IH]; cbn; [lia|].
  destruct (m r); cbn; lia.
Qed.

Lemma clean_step_counts (n : nat) cur removed col cur' removed' :
  map_Forall (fun _ v => 1 <= v <= n) removed -> len cur <= n ->
  clean_step (cur, removed) col = (cur', removed') ->
  map_Forall (fun _ v => 1 <= v <= n) removed' /\ len cur' <= n.
Proof.
  intros Hall Hlen Hstep. unfold clean_step in Hstep.
  destruct (is_numeric_dtype cur col); [|inversion Hstep; subst; auto].
  pose proof (mask_sum_le (fun r => lt_zero (at_col col r)) (rows cur)) as H1.
  pose proof (mask_sum_le (fun r => isnull (at_col col r)) (rows cur)) as H2.
  set (n1 := mask_sum (fun r => lt_zero (at_col col r)) (rows cur)) in *.
  set (n2 := mask_sum (fun r => isnull (at_col col r)) (rows cur)) in *.
  inversion Hstep; subst cur' removed'; clear Hstep. unfold len in *. split.
  - destruct (0 <? n1) eqn:E1; destruct (0 <? n2) eqn:E2;
      try apply Nat.ltb_lt in E1; try apply Nat.ltb_lt in E2;
      repeat (apply map_Forall_insert_2; [lia|]); exact Hall.
  - unfold select_rows. cbn [rows].
    pose proof (split_counts col (rows cur)). fold n1 n2 in H. lia.
Qed.

Lemma clean_loop_counts (n : nat) (cols : list string) :
  forall cur removed cur' removed',
    map_Forall (fun _ v => 1 <= v <= n) removed -> len cur <= n ->
    fold_left clean_step cols (cur, removed) = (cur', removed') ->
    map_Forall (fun _ v => 1 <= v <= n) removed'.
Proof.
  induction cols as [|col cols IH]; intros cur removed cur' removed' Hall Hlen Hfold.
  - cbn in Hfold. inversion Hfold; subst. exact Hall.
  - cbn [fold_left] in Hfold.
    destruct (clean_step (cur, removed) col) as [cur1 removed1] eqn:Hstep.
    destruct (clean_step_counts n _ _ _ _ _ Hall Hlen Hstep) as [Hall1 Hlen1].
    eapply IH; eassumption.
Qed.

Lemma clean_step_keeps_reasons st col :
  snd st <> ∅ -> snd (clean_step st col) <> ∅.
Proof.
  destruct st as [cur removed]. cbn [snd]. intros Hne. unfold clean_step.
  destruct (is_numeric_dtype cur col); [|exact Hne]. cbn [snd].
  destruct (0 <? mask_sum (fun r => isnull (at_col col r)) (rows cur));
    [apply insert_non_empty|].
  destruct (0 <? mask_sum (fun r => lt_zero (at_col col r)) (rows cur));
    [apply insert_non_empty|exact Hne].
Qed.

Lemma clean_loop_keeps_reasons cols : forall st,
  snd st <> ∅ -> snd (fold_left clean_step cols st) <> ∅.
Proof.
  induction cols as [|col cols IH]; intros st Hne; [exact Hne|].
  cbn [fold_left]. apply IH. apply clean_step_keeps_reasons. exact Hne.
Qed.

Lemma clean_step_no_reason cur removed col :
  snd (clean_step (cur, removed) col) = ∅ ->
  len (fst (clean_step (cur, removed) col)) = len cur.
Proof.
  unfold clean_step. destruct (is_numeric_dtype cur col); [|reflexivity].
  cbn [fst snd]. pose proof (split_counts col (rows cur)) as Hsplit.
  set (n1 := mask_sum (fun r => lt_zero (at_col col r)) (rows cur)) in *.
  set (n2 := mask_sum (fun r => isnull (at_col col r)) (rows cur)) in *.
  destruct (0 <? n2) eqn:E2; [intros H; destruct (insert_non_empty _ _ _ H)|].
  destruct (0 <? n1) eqn:E1; [intros H; destruct (insert_non_empty _ _ _ H)|].
  intros _. apply Nat.ltb_ge in E1, E2. unfold len, select_rows. cbn [rows]. lia.
Qed.

(** Without a recorded reason no row was removed. *)
Lemma clean_loop_no_reason cols : forall cur removed,
  snd (fold_left clean_step cols (cur, removed)) = ∅ ->
  len (fst (fold_left clean_step cols (cur, removed))) = len cur.
Proof.
  induction cols as [|col cols IH]; intros cur removed Hempty; [reflexivity|].
  cbn [fold_left] in *.
  destruct (clean_step (cur, removed) col) as [cur1 removed1] eqn:Hstep.
  destruct (decide (removed1 = ∅)) as [He|Hne].
  - rewrite (IH cur1 removed1 Hempty).
    pose proof (clean_step_no_reason cur removed col) as H.
    rewrite Hstep in H. apply H. exact He.
  - exfalso. apply (clean_loop_keeps_reasons cols (cur1, removed1) Hne). exact Hempty.
Qed.

(** X3.  Every count of the removal breakdown lies between 1 and the
    initial row count, so the share-of-rows test of the import summary
    never divides by zero, also for an empty upload; it signals exactly
    when more than a fifth of the rows was removed. *)
Theorem removal_summary_defined (df : DataFrame) :
  let stats := snd (clean_data df) in
  map_Forall (fun _ v => 1 <= v <= initial_rows stats) (removed_rows stats)
  /\ exists b,
      significant_removal stats = Some b
      /\ (b = true <-> initial_rows stats < 5 * total_removed stats).
Proof.
  intros stats.
  assert (Hall : map_Forall (fun _ v => 1 <= v <= initial_rows stats)
                            (removed_rows stats)).
  { unfold stats, clean_data.
    destruct (fold_left clean_step (columns_to_clean df) (df, ∅))
      as [cur removed] eqn:Hfold.
    cbn [snd initial_rows removed_rows].
    eapply (clean_loop_counts (len df)); [|reflexivity|exact Hfold].
    apply map_Forall_empty. }
  split; [exact Hall|].
  unfold significant_removal.
  destruct (map_to_list (removed_rows stats)) as [|[k v] rest] eqn:Hlist.
  - exists false. split; [reflexivity|]. split; [discriminate|].
    apply map_to_list_empty_iff in Hlist.
    assert (Htot : total_removed stats = 0).
    { unfold stats in *. unfold clean_data in *.
      pose proof (clean_loop_no_reason (columns_to_clean df) df ∅) as Hlen.
      destruct (fold_left clean_step (columns_to_clean df) (df, ∅))
        as [cur removed].
      cbn [fst snd removed_rows total_removed] in *.
      rewrite (Hlen Hlist). lia. }
    rewrite Htot. lia.
  - assert (Hv : removed_rows stats !! k = Some v).
    { apply elem_of_map_to_list. rewrite Hlist. left. }
    pose proof (Hall k v Hv) as Hbound. cbn beta in Hbound.
    destruct (initial_rows stats =? 0)%nat eqn:E0; [apply Nat.eqb_eq in E0; lia|].
    apply Nat.eqb_neq in E0.
    eexists. split; [reflexivity|].
    rewrite Qlt_bool_iff.
    assert (Hpos : (0 < inject_Z (Z.of_nat (initial_rows stats)))%Q).
    { change 0%Q with (inject_Z 0). rewrite <- Zlt_Qlt. lia. }
    set (T := inject_Z (Z.of_nat (total_removed stats))) in *.
    set (I := inject_Z (Z.of_nat (initial_rows stats))) in *.
    assert (Heq : (T / I * I == T)%Q) by (field; lra).
    split.
    + intros H. apply (proj2 (Qmult_lt_r _ _ I Hpos)) in H. rewrite Heq in H.
      unfold T, I, Qlt in H. cbn in H. lia.
    + intros H. apply (proj1 (Qmult_lt_r _ _ I Hpos)). rewrite Heq.
      unfold T, I, Qlt. cbn. lia.
Qed.

End ImportSummary.

(** ** Normalizer: shape, range, inversion, repetition *)

Section NormalizerMore.

Import Normalizer Series.

Lemma set_header_labels (col : string) (d : dtype) (cs : list (string * dtype)) :
  In col (map fst cs) -> map fst (set_header col d cs) = map fst cs.
Proof.
  induction cs as [|[c d'] cs IH]; intros Hin; [destruct Hin|].
  cbn [set_header]. destruct (String.eqb c col) eqn:E; [reflexivity|].
  cbn [map fst]. f_equal. apply IH. destruct Hin as [H|H]; [|exact H].
  cbn in H. subst. rewrite String.eqb_refl in E. discriminate.
Qed.

Lemma normalize_step_len inv df col : len (normalize_step inv df col) = len df.
Proof. apply len_assign. Qed.

Lemma normalize_step_labels inv df col :
  In col (labels df) -> labels (normalize_step inv df col) = labels df.
Proof. intros H. unfold normalize_step, assign, labels. cbn [columns]. apply set_header_labels. exact H. Qed.

Lemma normalize_step_cells inv df col c :
  col <> c -> col_cells c (normalize_step inv df col) = col_cells c df.
Proof. intros H. unfold normalize_step. apply col_cells_assign_other. exact H. Qed.

(** X4.  Normalization keeps the number of rows and, for columns of the
    table, the header; every column that is not selected, the identifier
    columns among them, keeps its cells. *)
Theorem normalize_data_keeps_shape (df : DataFrame) (cols inv : list string) :
  (forall c, In c cols -> In c (labels df)) ->
  len (normalize_data df cols inv) = len df
  /\ labels (normalize_data df cols inv) = labels df
  /\ (forall c, ~ In c cols ->
        col_cells c (normalize_data df cols inv) = col_cells c df).
Proof.
  unfold normalize_data. revert df.
  induction cols as [|col cols IH]; intros df Hsub; [repeat split|].
  cbn [fold_left].
  assert (Hcol : In col (labels df)) by (apply Hsub; left; reflexivity).
  destruct (IH (normalize_step inv df col)) as (Hlen & Hlab & Hcells).
  { intros c Hc. rewrite normalize_step_labels by exact Hcol. apply Hsub. right. exact Hc. }
  split; [rewrite Hlen; apply normalize_step_len|].
  split; [rewrite Hlab; apply normalize_step_labels; exact Hcol|].
  intros c Hc. rewrite Hcells.
  - apply normalize_step_cells. intros ->. apply Hc. left. reflexivity.
  - intros H. apply Hc. right. exact H.
Qed.

Lemma normalize_data_keeps_shape_witness :
  labels (normalize_data Examples.five_values ["x"] ["x"]) = labels Examples.five_values.
Proof.
  refine (proj1 (proj2 (normalize_data_keeps_shape Examples.five_values ["x"] ["x"] _))).
  intros c [<-|[]]. left. reflexivity.
Defined.

End NormalizerMore.

(** ** ScoreEngine: scores, ranks and the sorted table *)

Section ScoreMore.

Import ScoreEngine Orders.

Lemma counts_le_length (scores : list Q) (v : Q) :
  count_greater scores v + count_equal scores v <= length scores.
Proof.
  unfold count_greater, count_equal.
  induction scores as [|x l IH]; [reflexivity|]. cbn [List.filter length].
  destruct (Qlt_bool v x) eqn:E1, (Qeq_bool x v) eqn:E2; cbn [length]; try lia.
  apply Qlt_bool_iff in E1. apply Qeq_bool_iff in E2. lra.
Qed.

(** X9.  Every rank lies between 1 and the number of scores. *)
Theorem rank_between_one_and_n (scores : list Q) (v : Q) :
  In v scores ->
  (1 <= rank_of scores v <= inject_Z (Z.of_nat (length scores)))%Q.
Proof.
  intros Hv.
  assert (Hv' : exists s, In s scores /\ (s == v)%Q) by (exists v; split; [exact Hv|reflexivity]).
  rewrite (rank_of_value scores v Hv').
  pose proof (inject_nat_le _ _ (count_equal_pos scores v Hv')) as He.
  pose proof (inject_nat_le _ _ (counts_le_length scores v)) as Hn.
  pose proof (inject_nat_le _ _ (Nat.le_0_l (count_greater scores v))) as Hg.
  rewrite Nat2Z.inj_add, inject_Z_plus in Hn.
  change (inject_Z (Z.of_nat 1)) with 1%Q in He.
  change (inject_Z (Z.of_nat 0)) with 0%Q in Hg.
  revert He Hn Hg.
  generalize (inject_Z (Z.of_nat (count_greater scores v))) as g.
  generalize (inject_Z (Z.of_nat (count_equal scores v))) as e.
  generalize (inject_Z (Z.of_nat (length scores))) as n.
  intros n e g He Hn Hg. unfold Qdiv. change (/ 2)%Q with (1 # 2)%Q. lra.
Qed.

Lemma rank_between_one_and_n_witness :
  (1 <= rank_of [1 # 2; 1 # 2; 1 # 5] (1 # 2) <= inject_Z (Z.of_nat 3))%Q.
Proof.
  apply (rank_between_one_and_n [1 # 2; 1 # 2; 1 # 5] (1 # 2)).
  left. reflexivity.
Defined.

Lemma insert_desc_perm {A} (key : A -> num) (r : A) (rs : list A) :
  Permutation (r :: rs) (insert_desc key r rs).
Proof.
  induction rs as [|r' rs IH]; cbn [insert_desc]; [reflexivity|].
  destruct (stays_before key r' r); [|reflexivity].
  etransitivity; [apply perm_swap|]. apply perm_skip. exact IH.
Qed.

Lemma stays_before_order {A} (key : A -> num) (r' r : A) :
  stays_before key r' r = true -> in_desc_order key r' r.
Proof.
  unfold stays_before, in_desc_order.
  destruct (key r') as [a|], (key r) as [b|]; intros H; try discriminate; [|exact I].
  apply Qlt_bool_iff in H. lra.
Qed.

Lemma not_stays_before_order {A} (key : A -> num) (r' r : A) :
  stays_before key r' r = false -> in_desc_order key r r'.
Proof.
  unfold stays_before, in_desc_order.
  destruct (key r') as [a|], (key r) as [b|]; intros H; try discriminate; try exact I.
  apply Qlt_bool_false_iff in H. exact H.
Qed.

Lemma insert_desc_hdrel {A} (key : A -> num) (a r : A) (rs : list A) :
  in_desc_order key a r -> HdRel (in_desc_order key) a rs ->
  HdRel (in_desc_order key) a (insert_desc key r rs).
Proof.
  intros Har Hrs. destruct rs as [|r' rs]; cbn [insert_desc]; [constructor; exact Har|].
  destruct (stays_before key r' r); constructor; [|exact Har].
  inversion Hrs; assumption.
Qed.

Lemma insert_desc_sorted {A} (key : A -> num) (r : A) (rs : list A) :
  Sorted (in_desc_order key) rs -> Sorted (in_desc_order key) (insert_desc key r rs).
Proof.
  induction 1 as [|r' rs Hs IH Hhd]; cbn [insert_desc]; [repeat constructor|].
  destruct (stays_before key r' r) eqn:E.
  - constructor; [exact IH|]. apply insert_desc_hdrel; [|exact Hhd].
    apply stays_before_order. exact E.
  - constructor; [constructor; assumption|]. constructor.
    apply not_stays_before_order. exact E.
Qed.

(** X10.  Sorting a table by score keeps its header and its rows (as a
    permutation) and puts every row before the next one in descending
    order of score, rows without a score last. *)
Theorem sort_values_desc_sorted (col : string) (df : DataFrame) :
  columns (sort_values_desc col df) = columns df
  /\ Permutation (rows df) (rows (sort_values_desc col df))
  /\ Sorted (in_desc_order (at_num col)) (rows (sort_values_desc col df))
  /\ len (sort_values_desc col df) = len df.
Proof.
  unfold sort_values_desc, sort_desc_by, len. cbn [columns rows].
  assert (Hperm : Permutation (rows df)
                    (fold_right (insert_desc (at_num col)) [] (rows df))).
  { induction (rows df) as [|r rs IH]; cbn; [constructor|].
    etransitivity; [apply perm_skip; exact IH|]. apply insert_desc_perm. }
  split; [reflexivity|]. split; [exact Hperm|]. split.
  - clear Hperm. induction (rows df) as [|r rs IH]; cbn; [constructor|].
    apply insert_desc_sorted. exact IH.
  - symmetry. apply Permutation_length. exact Hperm.
Qed.

End ScoreMore.

(** ** Selector: where the cutoff lies *)

Section SelectorMore.

Import Selector.

Lemma sorted_nth_le (s : list Q) :
  Sorted Qle s ->
  forall i j, i <= j -> j < length s -> (nth i s 0 <= nth j s 0)%Q.
Proof.
  intros Hs. apply Sorted_StronglySorted in Hs.
  2:{ intros x y z Hxy Hyz. eapply Qle_trans; eassumption. }
  induction Hs as [|x l Hl IH Hall]; intros i j Hij Hj; [cbn in Hj; lia|].
  destruct i as [|i], j as [|j]; cbn [nth]; try lia.
  - apply Qle_refl.
  - rewrite List.Forall_forall in Hall. apply Hall. apply nth_In. cbn in Hj. lia.
  - apply IH; cbn in Hj; lia.
Qed.

Lemma filter_length_lt {A} (f : A -> bool) (l : list A) (x : A) :
  In x l -> f x = false -> length (List.filter f l) < length l.
Proof.
  intros Hx Hf. induction l as [|y l IH]; [destruct Hx|]. cbn [List.filter].
  pose proof (filter_length_le f l) as Hle.
  destruct Hx as [->|Hx].
  - rewrite Hf. cbn. lia.
  - specialize (IH Hx). destruct (f y); cbn; lia.
Qed.

Lemma dropna_In (f : gmap string cell -> num) (rs : list (gmap string cell)) (q : Q) :
  In q (dropna (map f rs)) -> exists r, In r rs /\ f r = Some q.
Proof.
  induction rs as [|r rs IH]; cbn; [intros []|].
  destruct (f r) as [v|] eqn:E.
  - intros [<-|H]; [exists r; auto|].
    destruct (IH H) as (r0 & Hr0 & Hf). exists r0. auto.
  - intros H. destruct (IH H) as (r0 & Hr0 & Hf). exists r0. auto.
Qed.

Lemma In_dropna (f : gmap string cell -> num) (rs : list (gmap string cell))
    (r : gmap string cell) (q : Q) :
  In r rs -> f r = Some q -> In q (dropna (map f rs)).
Proof.
  intros Hr Hq. induction rs as [|r' rs IH]; [destruct Hr|]. cbn.
  destruct Hr as [->|Hr].
  - rewrite Hq. left. reflexivity.
  - destruct (f r'); [right|]; apply IH; exact Hr.
Qed.

Lemma interpolated_between (s : list Q) (p : Z) (c : Q) :
  Sorted Qle s -> interpolated s p c ->
  (nth 0 s 0 <= c)%Q /\ (c <= nth (length s - 1) s 0)%Q.
Proof.
  intros Hs (j & g & Hg0 & Hg1 & Hj & _ & Hc).
  pose proof (sorted_nth_le s Hs 0 j ltac:(lia) Hj) as H0.
  pose proof (sorted_nth_le s Hs j (Nat.min (S j) (length s - 1)) ltac:(lia) ltac:(lia)) as H1.
  pose proof (sorted_nth_le s Hs (Nat.min (S j) (length s - 1)) (length s - 1)
                ltac:(lia) ltac:(lia)) as H2.
  revert H0 H1 H2 Hc.
  generalize (nth 0 s 0%Q) as a. generalize (nth j s 0%Q) as lo.
  generalize (nth (Nat.min (S j) (length s - 1)) s 0%Q) as hi.
  generalize (nth (length s - 1) s 0%Q) as b.
  intros b hi lo a H0 H1 H2 Hc. rewrite Hc.
  assert (Hp : (0 <= (hi - lo) * g)%Q) by (apply Qmult_le_0_compat; lra).
  assert (Hq : (0 <= (hi - lo) * (1 - g))%Q) by (apply Qmult_le_0_compat; lra).
  split; lra.
Qed.

Lemma interpolated_top (s : list Q) (c : Q) :
  interpolated s 100 c -> (c == nth (length s - 1) s 0)%Q.
Proof.
  intros (j & g & Hg0 & Hg1 & Hj & Hpos & Hc).
  assert (Hone : (inject_Z 100 / 100 == 1)%Q) by reflexivity.
  rewrite Hone, Qmult_1_r in Hpos.
  assert (Hg : (g == inject_Z (Z.of_nat (length s - 1) - Z.of_nat j))%Q).
  { unfold Z.sub. rewrite inject_Z_plus, inject_Z_opp. lra. }
  assert (Hz : (Z.of_nat (length s - 1) - Z.of_nat j = 0)%Z).
  { rewrite Hg in Hg0, Hg1.
    change 0%Q with (inject_Z 0) in Hg0. change 1%Q with (inject_Z 1) in Hg1.
    rewrite <- Zle_Qle in Hg0. rewrite <- Zlt_Qlt in Hg1. lia. }
  assert (Hj' : j = length s - 1) by lia.
  rewrite Hz in Hg. change (inject_Z 0) with 0%Q in Hg.
  rewrite Hc, Hg. subst j. ring.
Qed.

(** X11.  The cutoff lies between the least and the greatest score, so a
    row with the least score is never selected and the selection is
    always smaller than the ranked table; at the threshold 100 the cutoff
    is the greatest score and nothing is selected. *)
Theorem selection_is_proper (df_ranked : DataFrame) (p : Z) :
  (1 <= p <= 100)%Z ->
  rows df_ranked <> [] ->
  Forall (fun r => exists q, at_num "Composite Score" r = Some q) (rows df_ranked) ->
  (exists c lo hi,
      percentile_value df_ranked p = Some c
      /\ In lo (dropna (col_values "Composite Score" df_ranked))
      /\ In hi (dropna (col_values "Composite Score" df_ranked))
      /\ (lo <= c <= hi)%Q)
  /\ len (select_stocks df_ranked p) < len df_ranked
  /\ (p = 100%Z -> rows (select_stocks df_ranked p) = []).
Proof.
  intros Hp Hne Hall.
  destruct (percentile_interpolated (col_values "Composite Score" df_ranked) p Hp)
    as (c & s & Hc & Hperm & Hsorted & Hint).
  { unfold col_values. destruct (rows df_ranked); [contradiction|discriminate]. }
  { apply all_present_no_nan. exact Hall. }
  fold (percentile_value df_ranked p) in Hc.
  destruct (interpolated_between s p c Hsorted Hint) as [Hlo Hhi].
  assert (Hlen : 0 < length s).
  { destruct Hint as (j & _ & _ & _ & Hj & _). lia. }
  assert (Hin0 : In (nth 0 s 0%Q) (dropna (col_values "Composite Score" df_ranked))).
  { eapply Permutation_in; [symmetry; exact Hperm|]. apply nth_In. exact Hlen. }
  assert (Hin1 : In (nth (length s - 1) s 0%Q)
                    (dropna (col_values "Composite Score" df_ranked))).
  { eapply Permutation_in; [symmetry; exact Hperm|]. apply nth_In. lia. }
  split; [exists c, (nth 0 s 0%Q), (nth (length s - 1) s 0%Q); auto|].
  pose proof (select_stocks_rows df_ranked p) as Hrows. rewrite Hc in Hrows.
  split.
  - unfold len. rewrite Hrows, length_map.
    apply dropna_In in Hin0. destruct Hin0 as (r & Hr & Hq).
    apply (filter_length_lt _ _ r Hr).
    unfold above, num_gt. rewrite Hq. apply Qlt_bool_false_iff. exact Hlo.
  - intros ->. rewrite Hrows. rewrite filter_all_false; [reflexivity|].
    intros r Hr. rewrite List.Forall_forall in Hall. destruct (Hall r Hr) as (q & Hq).
    unfold above, num_gt. rewrite Hq. apply Qlt_bool_false_iff.
    rewrite (interpolated_top s c Hint).
    assert (Hqs : In q s).
    { eapply Permutation_in; [exact Hperm|].
      apply (In_dropna _ _ r q Hr Hq). }
    apply In_nth with (d := 0%Q) in Hqs. destruct Hqs as (i & Hi & <-).
    apply sorted_nth_le; [exact Hsorted|lia|lia].
Qed.

Lemma selection_is_proper_witness :
  len (select_stocks Examples.ranked_table 100) < len Examples.ranked_table.
Proof.
  refine (proj1 (proj2 (selection_is_proper Examples.ranked_table 100 _ _ _))).
  - lia.
  - discriminate.
  - repeat constructor; eexists; vm_compute; reflexivity.
Defined.

End SelectorMore.

(** ** ReturnsAnalyzer: the covariance matrix *)

Section CovarianceMore.

Import ReturnsAnalyzer Series Matrix.

Lemma complete_pairs_swap (xs ys : list num) :
  complete_pairs ys xs = map (fun p => (snd p, fst p)) (complete_pairs xs ys).
Proof.
  revert ys. induction xs as [|x xs IH]; intros [|y ys].
  - reflexivity.
  - destruct y; reflexivity.
  - destruct x; reflexivity.
  - destruct x as [a|], y as [b|]; cbn; rewrite IH; reflexivity.
Qed.

Lemma Qsum_pointwise {A} (f g : A -> Q) (l : list A) :
  (forall p, In p l -> (f p == g p)%Q) -> (Qsum (map f l) == Qsum (map g l))%Q.
Proof.
  induction l as [|p l IH]; intros H; cbn; [reflexivity|].
  rewrite (H p (or_introl eq_refl)), IH; [reflexivity|].
  intros q Hq. apply H. right. exact Hq.
Qed.

Lemma Qsum_nonneg (l : list Q) : (forall q, In q l -> (0 <= q)%Q) -> (0 <= Qsum l)%Q.
Proof.
  induction l as [|x l IH]; intros H; cbn; [lra|].
  pose proof (H x (or_introl eq_refl)).
  assert (0 <= Qsum l)%Q by (apply IH; intros q Hq; apply H; right; exact Hq). lra.
Qed.

Lemma cov_symmetric (xs ys : list num) : same (cov xs ys) (cov ys xs).
Proof.
  unfold cov. rewrite (complete_pairs_swap xs ys).
  set (ps := complete_pairs xs ys). rewrite length_map.
  destruct (length ps <? 2)%nat; cbn [same]; [exact I|].
  assert (Hf : map fst (map (fun p : Q * Q => (snd p, fst p)) ps) = map snd ps)
    by (rewrite map_map; reflexivity).
  assert (Hs : map snd (map (fun p : Q * Q => (snd p, fst p)) ps) = map fst ps)
    by (rewrite map_map; reflexivity).
  unfold Qlen. rewrite Hf, Hs, length_map, map_map. cbn [fst snd].
  apply Qdiv_comp; [|reflexivity].
  apply Qsum_pointwise. intros p _. ring.
Qed.

Lemma complete_pairs_diag (xs : list num) :
  forall p, In p (complete_pairs xs xs) -> fst p = snd p.
Proof.
  induction xs as [|[a|] xs IH]; cbn; intros p Hp; [destruct Hp| |auto].
  destruct Hp as [<-|Hp]; [reflexivity|auto].
Qed.

Lemma variance_nonneg (xs : list num) :
  match cov xs xs with
  | Some v => (0 <= v)%Q
  | None => True
  end.
Proof.
  unfold cov. set (ps := complete_pairs xs xs).
  destruct (length ps <? 2)%nat eqn:E; [exact I|].
  apply Nat.ltb_ge in E.
  assert (Hden : (0 < Qlen ps - 1)%Q).
  { unfold Qlen. change 1%Q with (inject_Z 1). unfold Qminus.
    rewrite <- inject_Z_opp, <- inject_Z_plus.
    change 0%Q with (inject_Z 0). rewrite <- Zlt_Qlt. lia. }
  apply Qle_shift_div_l; [exact Hden|]. rewrite Qmult_0_l.
  apply Qsum_nonneg. intros q Hq. apply in_map_iff in Hq.
  destruct Hq as (p & <- & Hp).
  rewrite (Qsum_pointwise (fun p => snd p) (fun p => fst p) ps).
  2:{ intros p0 Hp0. rewrite (complete_pairs_diag xs p0 Hp0). reflexivity. }
  rewrite <- (complete_pairs_diag xs p Hp).
  set (d := (fst p - Qsum (map fst ps) / Qlen ps)%Q).
  destruct (Qlt_le_dec d 0) as [Hneg|Hpos].
  - assert (H : (0 <= (- d) * (- d))%Q) by (apply Qmult_le_0_compat; lra). lra.
  - apply Qmult_le_0_compat; exact Hpos.
Qed.

Lemma same_scaled (x y k : num) : same x y -> same (num_mul x k) (num_mul y k).
Proof.
  destruct x as [a|], y as [b|], k as [c|]; cbn; try tauto.
  intros H. rewrite H. reflexivity.
Qed.

(** X12.  The annualized covariance matrix is symmetric, entry by entry
    (NaN at mirrored places), and no entry of its diagonal is negative. *)
Theorem covariance_matrix_symmetric (returns_data : ReturnsFrame) (i j : nat) :
  same (entry (covariance_matrix_of returns_data) i j)
       (entry (covariance_matrix_of returns_data) j i)
  /\ match entry (covariance_matrix_of returns_data) i i with
     | Some v => (0 <= v)%Q
     | None => True
     end.
Proof.
  rewrite !entry_covariance. split.
  - destruct (nth_error (assets returns_data) i) as [a|],
             (nth_error (assets returns_data) j) as [b|]; cbn [same]; try exact I.
    apply same_scaled. apply cov_symmetric.
  - destruct (nth_error (assets returns_data) i) as [a|]; [|exact I].
    pose proof (variance_nonneg (snd a)) as Hv.
    destruct (cov (snd a) (snd a)) as [v|]; cbn [num_mul]; [|exact I].
    apply Qmult_le_0_compat; [exact Hv|].
    change 0%Q with (inject_Z 0). rewrite <- Zle_Qle. lia.
Qed.

End CovarianceMore.

(** ** The session state: defaults and stage gating *)

Section SessionMore.

Import Session.

Lemma set_default_keeps {V} (ss : gmap string V) (item : string * V) (k : string) (v : V) :
  ss !! k = Some v -> set_default ss item !! k = Some v.
Proof.
  intros Hk. unfold set_default. destruct (ss !! fst item) eqn:E; [exact Hk|].
  rewrite lookup_insert_ne; [exact Hk|]. intros Heq. subst. congruence.
Qed.

Lemma initialize_keeps {V} (vars : list (string * V)) : forall ss k v,
  ss !! k = Some v -> initialize_with vars ss !! k = Some v.
Proof.
  induction vars as [|item vars IH]; intros ss k v Hk; [exact Hk|].
  cbn [initialize_with fold_left]. apply IH. apply set_default_keeps. exact Hk.
Qed.

Lemma initialize_defines {V} (vars : list (string * V)) : forall ss k,
  In k (map fst vars) -> is_Some (initialize_with vars ss !! k).
Proof.
  induction vars as [|item vars IH]; intros ss k Hk; [destruct Hk|].
  cbn [initialize_with fold_left]. destruct Hk as [<-|Hk]; [|apply IH; exact Hk].
  assert (Hs : is_Some (set_default ss item !! fst item)).
  { unfold set_default. destruct (ss !! fst item) eqn:E; [rewrite E; eauto|].
    rewrite lookup_insert_eq. eauto. }
  destruct Hs as [v Hv]. exists v. apply initialize_keeps. exact Hv.
Qed.

Lemma initialize_absent {V} (vars : list (string * V)) : forall ss k,
  ~ In k (map fst vars) -> initialize_with vars ss !! k = ss !! k.
Proof.
  induction vars as [|item vars IH]; intros ss k Hk; [reflexivity|].
  cbn [initialize_with fold_left]. fold (initialize_with vars (set_default ss item)).
  rewrite IH by (intros H; apply Hk; right; exact H).
  unfold set_default. destruct (ss !! fst item); [reflexivity|].
  apply lookup_insert_ne. intros Heq. apply Hk. left. exact Heq.
Qed.

Lemma initialize_fixed {V} (vars : list (string * V)) : forall ss,
  (forall k, In k (map fst vars) -> is_Some (ss !! k)) ->
  initialize_with vars ss = ss.
Proof.
  induction vars as [|item vars IH]; intros ss Hall; [reflexivity|].
  cbn [initialize_with fold_left].
  assert (Hs : set_default ss item = ss).
  { unfold set_default. destruct (Hall (fst item) (or_introl eq_refl)) as [v Hv].
    rewrite Hv. reflexivity. }
  rewrite Hs. apply IH. intros k Hk. apply Hall. right. exact Hk.
Qed.

(** X14.  Initializing the session state never overwrites an entry that
    is already there (a rerun of the script keeps the progress of the
    pipeline), defines every state variable, touches no other key, and
    does nothing when run a second time. *)
Theorem initialize_session_state_keeps (ss : gmap string pydefault) :
  (forall k v, ss !! k = Some v -> initialize_session_state ss !! k = Some v)
  /\ Forall (fun k => is_Some (initialize_session_state ss !! k)) (map fst state_vars)
  /\ (forall k, ~ In k (map fst state_vars) ->
        initialize_session_state ss !! k = ss !! k)
  /\ initialize_session_state (initialize_session_state ss)
     = initialize_session_state ss
  /\ initialize_session_state ∅ = list_to_map state_vars.
Proof.
  unfold initialize_session_state.
  split; [intros k v; apply initialize_keeps|].
  split; [apply List.Forall_forall; intros k Hk; apply initialize_defines; exact Hk|].
  split; [intros k; apply initialize_absent|].
  split.
  - apply initialize_fixed. intros k Hk. apply initialize_defines. exact Hk.
  - apply map_eq. intros k.
    destruct (in_dec string_dec k (map fst state_vars)) as [Hin|Hout].
    + cbn in Hin.
      repeat (destruct Hin as [<-|Hin]; [vm_compute; reflexivity|]). destruct Hin.
    + rewrite initialize_absent by exact Hout. rewrite lookup_empty. symmetry.
      apply not_elem_of_list_to_map_1. intros H. apply Hout.
      apply list_elem_of_In. exact H.
Qed.

End SessionMore.

Section GatingMore.

Import Pipeline.

(** X15.  A table that is cleaned to zero rows is not stored, and while
    no cleaned table is stored the normalization and the composite score
    stages leave the session and the heap as they are. *)
Theorem zero_rows_block_later_stages (df : DataFrame) (w : World)
    (cols inv : list string) (weights : gmap string Q) :
  len (fst (Cleaner.clean_data df)) = 0 ->
  session_state w !! "cleaned_data" = Some VNone ->
  session_state w !! "normalization_completed" = Some (VBool false) ->
  handle_data_import df w = w
  /\ handle_normalization cols inv (handle_data_import df w) = w
  /\ handle_composite_score weights
       (handle_normalization cols inv (handle_data_import df w)) = w.
Proof.
  intros Hzero Hclean Hnorm.
  assert (H1 : handle_data_import df w = w).
  { unfold handle_data_import. destruct (Cleaner.clean_data df) as [c s].
    cbn [fst] in Hzero. rewrite Hzero. reflexivity. }
  assert (H2 : handle_normalization cols inv w = w)
    by (unfold handle_normalization, frame_at; rewrite Hclean; reflexivity).
  assert (H3 : handle_composite_score weights w = w)
    by (unfold handle_composite_score; rewrite Hnorm; reflexivity).
  rewrite H1, H2, H3. auto.
Qed.

Lemma zero_rows_block_later_stages_witness :
  handle_data_import Examples.all_invalid_table initial_world = initial_world.
Proof.
  refine (proj1 (zero_rows_block_later_stages Examples.all_invalid_table initial_world
                   [] [] ∅ _ _ _));
    vm_compute; reflexivity.
Defined.

End GatingMore.

Section GuardsMore.

Import Session.

(** X16.  Whatever an earlier run left in the session state, after
    [initialize_session_state] the keys ranked_data, selected_stocks,
    returns_data and covariance_matrix are in it, so the tests
    [key not in st.session_state] at the head of the stock selection,
    the returns analysis and the portfolio optimization are never true
    and their warnings are never shown; in a fresh session the values
    these stages then read are None. *)
Theorem membership_tests_never_hold (ss : gmap string pydefault) :
  stock_selection_returns (initialize_session_state ss) = false
  /\ returns_analysis_returns (initialize_session_state ss) = false
  /\ portfolio_optimization_returns (initialize_session_state ss) = false
  /\ initialize_session_state ∅ !! "ranked_data" = Some PNone
  /\ initialize_session_state ∅ !! "selected_stocks" = Some PNone
  /\ initialize_session_state ∅ !! "returns_data" = Some PNone
  /\ initialize_session_state ∅ !! "covariance_matrix" = Some PNone.
Proof.
  assert (Hin : forall k, In k (map fst state_vars) ->
                  not_in k (initialize_session_state ss) = false).
  { intros k Hk. unfold not_in, initialize_session_state.
    destruct (initialize_defines state_vars ss k Hk) as [v ->]. reflexivity. }
  unfold stock_selection_returns, returns_analysis_returns,
    portfolio_optimization_returns.
  rewrite !Hin by (cbn; tauto).
  repeat split; vm_compute; reflexivity.
Qed.

End GuardsMore.

(** ** PortfolioOptimizer: the reported weights *)

Section WeightsMore.

Import PostProcess Orders.

Lemma argmax_from_first_largest (l : list Q) : forall i best_i best pre,
  length pre = i -> best_i < i -> nth best_i pre 0%Q = best ->
  (forall j, j < i -> (nth j pre 0 <= best)%Q) ->
  (forall j, j < best_i -> (nth j pre 0 < best)%Q) ->
  argmax_from i best_i best l < length (pre ++ l)
  /\ (forall j, j < length (pre ++ l) ->
        (nth j (pre ++ l) 0 <= nth (argmax_from i best_i best l) (pre ++ l) 0)%Q)
  /\ (forall j, j < argmax_from i best_i best l ->
        (nth j (pre ++ l) 0 < nth (argmax_from i best_i best l) (pre ++ l) 0)%Q).
Proof.
  induction l as [|y l IH]; intros i best_i best pre Hlen Hbi Hbest Hle Hlt.
  - cbn [argmax_from]. rewrite app_nil_r, Hlen, Hbest. auto.
  - cbn [argmax_from].
    replace (pre ++ y :: l)%list with ((pre ++ [y]) ++ l)%list
      by (rewrite <- app_assoc; reflexivity).
    assert (Hpre : forall j, j < i -> nth j (pre ++ [y]) 0%Q = nth j pre 0%Q)
      by (intros j Hj; apply app_nth1; lia).
    assert (Hy : nth i (pre ++ [y]) 0%Q = y)
      by (rewrite app_nth2 by lia; rewrite Hlen, Nat.sub_diag; reflexivity).
    destruct (Qlt_bool best y) eqn:E.
    + apply Qlt_bool_iff in E. apply IH.
      * rewrite length_app, Hlen. cbn. lia.
      * lia.
      * exact Hy.
      * intros j Hj. destruct (Nat.eq_dec j i) as [->|Hne].
        -- rewrite Hy. lra.
        -- rewrite Hpre by lia. specialize (Hle j ltac:(lia)). lra.
      * intros j Hj. rewrite Hpre by lia. specialize (Hle j Hj). lra.
    + apply Qlt_bool_false_iff in E. apply IH.
      * rewrite length_app, Hlen. cbn. lia.
      * lia.
      * rewrite Hpre by lia. exact Hbest.
      * intros j Hj. destruct (Nat.eq_dec j i) as [->|Hne].
        -- rewrite Hy. exact E.
        -- rewrite Hpre by lia. apply Hle. lia.
      * intros j Hj. rewrite Hpre by lia. apply Hlt. exact Hj.
Qed.

Lemma nth_insert_ne (l : list Q) : forall i j v,
  j <> i -> nth j (<[i := v]> l) 0%Q = nth j l 0%Q.
Proof.
  induction l as [|a l IH]; intros i j v Hne; [reflexivity|].
  destruct i as [|i], j as [|j]; try reflexivity; [contradiction|].
  change (<[S i := v]> (a :: l)) with (a :: <[i := v]> l). cbn [nth].
  apply IH. lia.
Qed.

Lemma nth_insert_eq (l : list Q) : forall i v,
  i < length l -> nth i (<[i := v]> l) 0%Q = v.
Proof.
  induction l as [|a l IH]; intros i v Hi; [cbn in Hi; lia|].
  destruct i as [|i]; [reflexivity|].
  change (<[S i := v]> (a :: l)) with (a :: <[i := v]> l). cbn [nth].
  apply IH. cbn in Hi. lia.
Qed.

(** X19.  The entry that takes up the rounding residual is a largest
    rounded percentage and the first of them; the adjustment changes
    this entry by the residual and no other entry. *)
Theorem adjust_first_largest (y : Q) (l : list Q) :
  argmax (y :: l) < length (y :: l)
  /\ (forall j, j < length (y :: l) ->
        (nth j (y :: l) 0 <= nth (argmax (y :: l)) (y :: l) 0)%Q)
  /\ (forall j, j < argmax (y :: l) ->
        (nth j (y :: l) 0 < nth (argmax (y :: l)) (y :: l) 0)%Q)
  /\ length (adjust (y :: l)) = length (y :: l)
  /\ (forall j, j <> argmax (y :: l) ->
        nth j (adjust (y :: l)) 0%Q = nth j (y :: l) 0%Q)
  /\ nth (argmax (y :: l)) (adjust (y :: l)) 0%Q
     = (nth (argmax (y :: l)) (y :: l) 0 + (100 - Qsum (y :: l)))%Q.
Proof.
  destruct (argmax_from_first_largest l 1 0 y [y]) as (H1 & H2 & H3);
    try reflexivity; try lia.
  { intros j Hj. replace j with 0 by lia. cbn. lra. }
  change ([y] ++ l)%list with (y :: l) in H1, H2, H3.
  change (argmax_from 1 0 y l) with (argmax (y :: l)) in H1, H2, H3.
  split; [exact H1|]. split; [exact H2|]. split; [exact H3|].
  unfold adjust. split; [apply length_insert|].
  split; [intros j Hj; apply nth_insert_ne; exact Hj|].
  apply nth_insert_eq. exact H1.
Qed.

Lemma sort_desc_by_perm {A} (key : A -> num) (rs : list A) :
  Permutation rs (ScoreEngine.sort_desc_by key rs).
Proof.
  unfold ScoreEngine.sort_desc_by.
  induction rs as [|r rs IH]; cbn [fold_right]; [constructor|].
  etransitivity; [apply perm_skip; exact IH|]. apply insert_desc_perm.
Qed.

Lemma sort_desc_by_sorted {A} (key : A -> num) (rs : list A) :
  Sorted (in_desc_order key) (ScoreEngine.sort_desc_by key rs).
Proof.
  unfold ScoreEngine.sort_desc_by.
  induction rs as [|r rs IH]; cbn [fold_right]; [constructor|].
  apply insert_desc_sorted. exact IH.
Qed.

(** X20.  Every per-asset row of the report has a weight above 0.01 and
    is a row of the adjusted percentages under its own ticker, and the
    rows stand in descending order of weight. *)
Theorem asset_rows_reported (tickers : list string) (x : list Q) :
  Forall (fun r => (1 # 100 < Weight r)%Q) (asset_rows tickers x)
  /\ Forall (fun r => In r (zip_rows tickers (weights_pct x))) (asset_rows tickers x)
  /\ Sorted (in_desc_order (fun r => Some (Weight r))) (asset_rows tickers x).
Proof.
  unfold asset_rows.
  set (kept := List.filter (fun r => Qlt_bool (1 # 100) (Weight r))
                           (zip_rows tickers (weights_pct x))).
  pose proof (sort_desc_by_perm (fun r => Some (Weight r)) kept) as Hperm.
  assert (Hkept : forall r, In r (ScoreEngine.sort_desc_by (fun r => Some (Weight r)) kept) ->
                    In r (zip_rows tickers (weights_pct x))
                    /\ Qlt_bool (1 # 100) (Weight r) = true).
  { intros r Hr. apply (Permutation_in _ (Permutation_sym Hperm)) in Hr.
    apply List.filter_In in Hr. exact Hr. }
  split; [apply List.Forall_forall; intros r Hr; apply Qlt_bool_iff, Hkept, Hr|].
  split; [apply List.Forall_forall; intros r Hr; apply Hkept, Hr|].
  apply sort_desc_by_sorted.
Qed.

End WeightsMore.

(** ** PortfolioOptimizer: constraints, bounds and starting point *)

Section SolverMore.

Import Optimizer SolverInput.

Lemma indices_from_range (cols stocks : list cell) : forall i,
  Forall (fun k => i <= k < i + length cols) (indices_from i cols stocks).
Proof.
  induction cols as [|c cols IH]; intros i; cbn [indices_from length]; [constructor|].
  assert (Hrest : Forall (fun k => i <= k < i + S (length cols))
                         (indices_from (S i) cols stocks)).
  { eapply List.Forall_impl; [|apply IH]. cbn. intros k Hk. lia. }
  destruct (existsb (cell_eqb c) stocks); [|exact Hrest].
  constructor; [lia|exact Hrest].
Qed.

Lemma indices_from_increasing (cols stocks : list cell) : forall i,
  Sorted lt (indices_from i cols stocks).
Proof.
  induction cols as [|c cols IH]; intros i; cbn [indices_from]; [constructor|].
  destruct (existsb (cell_eqb c) stocks); [|apply IH].
  constructor; [apply IH|].
  pose proof (indices_from_range cols stocks (S i)) as Hr.
  destruct (indices_from (S i) cols stocks) as [|k ks]; constructor.
  inversion Hr; subst. lia.
Qed.

Lemma indices_from_member (cols stocks : list cell) : forall i k,
  In k (indices_from i cols stocks)
  <-> i <= k /\ exists symbol, nth_error cols (k - i) = Some symbol
                               /\ existsb (cell_eqb symbol) stocks = true.
Proof.
  induction cols as [|c cols IH]; intros i k; cbn [indices_from].
  - split; [intros []|]. intros (_ & s & Hs & _). destruct (k - i); discriminate.
  - assert (Hrest : In k (indices_from (S i) cols stocks)
                    <-> i < k /\ exists symbol, nth_error (c :: cols) (k - i) = Some symbol
                                   /\ existsb (cell_eqb symbol) stocks = true).
    { rewrite IH. split.
      - intros (Hk & s & Hs & Hin). split; [lia|]. exists s. split; [|exact Hin].
        replace (k - i) with (S (k - S i)) by lia. exact Hs.
      - intros (Hk & s & Hs & Hin). split; [lia|]. exists s. split; [|exact Hin].
        replace (k - i) with (S (k - S i)) in Hs by lia. exact Hs. }
    destruct (existsb (cell_eqb c) stocks) eqn:E.
    + cbn [In]. rewrite Hrest. split.
      * intros [<-|(Hk & H)]; [|split; [lia|exact H]].
        split; [lia|]. exists c. rewrite Nat.sub_diag. auto.
      * intros (Hk & s & Hs & Hin). destruct (Nat.eq_dec i k) as [->|Hne]; [left; reflexivity|].
        right. split; [lia|]. exists s. auto.
    + rewrite Hrest. split.
      * intros (Hk & H). split; [lia|exact H].
      * intros (Hk & s & Hs & Hin). split; [|exists s; auto].
        destruct (Nat.eq_dec i k) as [->|Hne]; [|lia].
        rewrite Nat.sub_diag in Hs. cbn in Hs. congruence.
Qed.

Lemma group_constraints_well_formed (mk : list nat -> ConstraintFun) (col : string)
    (names : list string) (sel : DataFrame) (cols : list cell) :
  (forall idx, mk idx = IndustryCap idx) \/ (forall idx, mk idx = BucketCap idx) ->
  Forall (well_formed (length cols)) (group_constraints mk col names sel cols).
Proof.
  intros Hmk. unfold group_constraints.
  induction names as [|name names IH]; cbn [flat_map]; [constructor|].
  apply Forall_app. split; [|exact IH].
  unfold group_indices.
  pose proof (indices_from_range cols (symbols_where col name sel) 0) as Hr.
  pose proof (indices_from_increasing cols (symbols_where col name sel) 0) as Hs.
  destruct (indices_from 0 cols (symbols_where col name sel)) as [|k ks] eqn:E;
    constructor; [|constructor].
  unfold well_formed. cbn [fun_ type_].
  assert (Hwf : Ineq = Ineq /\ k :: ks <> [] /\ Forall (fun j => j < length cols) (k :: ks)
                /\ Sorted lt (k :: ks)).
  { split; [reflexivity|]. split; [discriminate|]. split; [|exact Hs].
    eapply List.Forall_impl; [|exact Hr]. cbn. intros j Hj. lia. }
  destruct Hmk as [H|H]; rewrite H; exact Hwf.
Qed.

(** X21.  Every constraint handed to the solver is the equality on the
    sum of the weights or an inequality over a group of columns of the
    returns table: the group's index list is never empty (a group with no
    column gets no constraint), holds only positions of the weight
    vector, each once and in increasing order, and holds a position
    exactly when the symbol of that column is a symbol of the group. *)
Theorem constraints_well_formed (selected_stocks : DataFrame)
    (returns_columns : list cell) (sc : Scope) :
  Forall (well_formed (length returns_columns))
         (snd (build_constraints selected_stocks returns_columns sc))
  /\ (forall col v k,
        In k (group_indices col v selected_stocks returns_columns)
        <-> exists symbol, nth_error returns_columns k = Some symbol
              /\ existsb (cell_eqb symbol) (symbols_where col v selected_stocks) = true).
Proof.
  split.
  - unfold build_constraints.
    rewrite cap_loop_constraints, industry_loop_constraints. cbn [snd].
    apply Forall_app. split; [apply Forall_app; split|].
    + constructor; [reflexivity|constructor].
    + apply group_constraints_well_formed. left. reflexivity.
    + apply group_constraints_well_formed. right. reflexivity.
  - intros col v k. unfold group_indices. rewrite indices_from_member.
    rewrite Nat.sub_0_r. split; [intros [_ H]; exact H|intros H; split; [lia|exact H]].
Qed.

End SolverMore.

(** ** ReturnsAnalyzer: symbols and exchanges *)

Section DownloadMore.

Import ReturnsAnalyzer Download.

Lemma cell_eqb_refl (c : cell) : notnull c = true -> cell_eqb c c = true.
Proof.
  destruct c as [q| |s]; cbn; intros H; try discriminate.
  - apply Qeq_bool_iff. reflexivity.
  - apply String.eqb_refl.
Qed.

(** X23.  A selected stock with an NSE code is downloaded under that
    code with the suffix .NS.  A stock without an NSE code is downloaded
    under its BSE code, with the suffix .BO unless that code is the NSE
    code of some selected stock, in which case it gets the suffix .NS. *)
Theorem nse_code_decides_suffix (selected_stocks : DataFrame) :
  Forall (fun row =>
            (notnull (at_col "NSE Code" row) = true ->
             get_stock_symbol row = at_col "NSE Code" row
             /\ yahoo_suffix (get_stock_symbol row) selected_stocks = ".NS")
            /\ (notnull (at_col "NSE Code" row) = false ->
                get_stock_symbol row = at_col "BSE Code" row
                /\ (yahoo_suffix (get_stock_symbol row) selected_stocks = ".NS"
                    <-> exists other,
                          In other (rows selected_stocks)
                          /\ cell_eqb (at_col "NSE Code" other)
                                      (at_col "BSE Code" row) = true)
                /\ (yahoo_suffix (get_stock_symbol row) selected_stocks = ".BO"
                    <-> forall other,
                          In other (rows selected_stocks) ->
                          cell_eqb (at_col "NSE Code" other)
                                   (at_col "BSE Code" row) = false)))
         (rows selected_stocks).
Proof.
  apply List.Forall_forall. intros row Hrow. unfold get_stock_symbol, yahoo_suffix.
  split; intros Hn; rewrite Hn.
  - split; [reflexivity|].
    assert (He : existsb (fun code => cell_eqb code (at_col "NSE Code" row))
                         (col_cells "NSE Code" selected_stocks) = true).
    { apply existsb_exists. exists (at_col "NSE Code" row). split.
      - unfold col_cells. apply in_map. exact Hrow.
      - apply cell_eqb_refl. exact Hn. }
    rewrite He. reflexivity.
  - split; [reflexivity|].
    destruct (existsb (fun code => cell_eqb code (at_col "BSE Code" row))
                      (col_cells "NSE Code" selected_stocks)) eqn:E.
    + apply existsb_exists in E. destruct E as (code & Hin & Heq).
      unfold col_cells in Hin. apply in_map_iff in Hin. destruct Hin as (other & <- & Hother).
      split; split; try reflexivity; try discriminate.
      * intros _. exists other. auto.
      * intros H. rewrite (H other Hother) in Heq. discriminate.
    + split; split; try reflexivity; try discriminate.
      * intros (other & Hother & Heq).
        assert (Ht : existsb (fun code => cell_eqb code (at_col "BSE Code" row))
                             (col_cells "NSE Code" selected_stocks) = true).
        { apply existsb_exists. exists (at_col "NSE Code" other). split; [|exact Heq].
          unfold col_cells. apply in_map. exact Hother. }
        congruence.
      * intros _ other Hother.
        destruct (cell_eqb (at_col "NSE Code" other) (at_col "BSE Code" row)) eqn:Heq;
          [|reflexivity].
        assert (Ht : existsb (fun code => cell_eqb code (at_col "BSE Code" row))
                             (col_cells "NSE Code" selected_stocks) = true).
        { apply existsb_exists. exists (at_col "NSE Code" other). split; [|exact Heq].
          unfold col_cells. apply in_map. exact Hother. }
        congruence.
Qed.

End DownloadMore.
